(** * tbi.py: the aggregation pipelines of the TBI dashboard

    A shallow embedding of [tbi.py].  The script is a Streamlit page: it
    loads three CSV tables once (a memoised [load_data]) and, in its
    "Visualizations" section, derives four structures from them with pandas:

    - [proportions_by_age_type] and [proportions_by_year_type]
      (group-by-sum, unstack, divide by the group total, times 100);
    - the violin plot input (columns [injury_mechanism], [rate_est]);
    - [military_service_data] (group-by-sum per service, sort, map through
      the [recruitment_numbers] dict, divide, times 1000);
    - the scatter plot input (columns [year], [diagnosed], [severity],
      [service]).

    Modelling choices.
    - A [DataFrame] is a header and a list of rows; a row maps column names
      to cells and a name without entry is an empty CSV field (pandas' NaN).
    - float64 arithmetic is idealised: a [float64] is NaN, an infinity or an
      exact rational.  Division by zero and NaN follow IEEE 754; rounding,
      overflow and signed zeros are not modelled.
    - Sums are taken in the dtype of the column: the sum of a column of
      64-bit integers wraps around modulo 2^64, as numpy's does.
    - The calls that draw a chart (matplotlib, seaborn, [st.pyplot]) are
      parameters of the section: each returns or raises.
    - pandas' exceptions are values of [error] in the [result] monad. *)

From Stdlib Require Import QArith Qcanon.
From Stdlib Require Qcabs.
From stdpp Require Import base decidable option numbers list sorting.
From stdpp Require Import strings gmap.

Local Open Scope Qc_scope.

(** ** float64, idealised *)

Inductive float64 :=
  | NaN
  | PInf
  | NInf
  | Fin (q : Qc).

Definition Qc_sign (q : Qc) : comparison := q ?= 0.


(** [x * y]: zero times an infinity is NaN. *)
Definition fmul (x y : float64) : float64 :=
  match x, y with
  | NaN, _ | _, NaN => NaN
  | Fin a, Fin b => Fin (a * b)
  | Fin a, PInf | PInf, Fin a =>
      match Qc_sign a with Eq => NaN | Gt => PInf | Lt => NInf end
  | Fin a, NInf | NInf, Fin a =>
      match Qc_sign a with Eq => NaN | Gt => NInf | Lt => PInf end
  | PInf, PInf | NInf, NInf => PInf
  | PInf, NInf | NInf, PInf => NInf
  end.

(** [x / y]: numpy's true division.  [0 / 0] is NaN, a nonzero number over
    zero is an infinity of its sign, and nothing is raised. *)
Definition fdiv (x y : float64) : float64 :=
  match x, y with
  | NaN, _ | _, NaN => NaN
  | Fin a, Fin b =>
      match Qc_sign b with
      | Eq => match Qc_sign a with Eq => NaN | Gt => PInf | Lt => NInf end
      | _ => Fin (a / b)
      end
  | Fin _, (PInf | NInf) => Fin 0
  | (PInf | NInf), (PInf | NInf) => NaN
  | PInf, Fin b => match Qc_sign b with Lt => NInf | _ => PInf end
  | NInf, Fin b => match Qc_sign b with Lt => PInf | _ => NInf end
  end.

Definition is_nan (x : float64) : bool :=
  match x with NaN => true | _ => false end.


(** ** Tables *)

(** A cell that is present holds a string (object dtype) or a number; a
    number that is an integer stands for a field written as one. *)
Inductive value :=
  | Str (s : string)
  | Num (q : Qc).

Global Instance value_eq_dec : EqDecision value.
Proof. solve_decision. Defined.

(** The order pandas sorts group labels in; numbers sort before strings,
    which never meet in one column of a CSV file. *)
Definition value_leb (x y : value) : bool :=
  match x, y with
  | Num a, Num b => match a ?= b with Gt => false | _ => true end
  | Num _, Str _ => true
  | Str _, Num _ => false
  | Str a, Str b => String.leb a b
  end.

Definition value_le (x y : value) : Prop := value_leb x y = true.

Global Instance value_le_dec : RelDecision value_le.
Proof. intros x y. unfold value_le. apply _. Defined.

Definition Row := gmap string value.

Record DataFrame := mkDataFrame {
  columns : list string;
  rows : list Row
}.

(** ** Exceptions *)

Inductive error :=
  | KeyError (column : string)
  | ValueError (column : string)
  | TypeError (column : string)
  | FileNotFoundError (path : string).

Inductive result (A : Type) :=
  | Ok (a : A)
  | Raise (e : error).
Global Arguments Ok {A} a.
Global Arguments Raise {A} e.

Global Instance result_ret : MRet result := λ A a, Ok a.
Global Instance result_bind : MBind result := λ A B f m,
  match m with
  | Ok a => f a
  | Raise e => Raise e
  end.

(** ** dtypes *)

(** The dtype [read_csv] gives a column of numbers: int64 when every cell
    is present and holds an integer of the signed 64-bit range, uint64 when
    every cell is present and holds an integer below 2^64 (and one of them
    is 2^63 or more), float64 otherwise, an empty cell being NaN.  A column
    without rows has nothing to sum and counts as int64 here. *)
Inductive dtype :=
  | Int64
  | UInt64
  | Float64.

Definition integer_in (lo hi : Z) (x : option value) : bool :=
  match x with
  | Some (Num q) =>
      (Qden q =? 1)%positive && (lo <=? Qnum q)%Z && (Qnum q <? hi)%Z
  | _ => false
  end.

Definition dtype_of (c : string) (rs : list Row) : dtype :=
  if forallb (λ r, integer_in (- 2 ^ 63) (2 ^ 63) (r !! c)) rs then Int64
  else if forallb (λ r, integer_in 0 (2 ^ 64) (r !! c)) rs then UInt64
  else Float64.

(** The 64-bit integer of the range from [lo] that [z] wraps around to. *)
Definition wrap64 (lo z : Z) : Z := ((z - lo) mod 2 ^ 64 + lo)%Z.

(** What an accumulator of dtype [dt] holds once the values added to it
    amount to [q]: integer addition wraps around silently, float64 addition
    is exact here.  The sums of an integer column are integers. *)
Definition wrap (dt : dtype) (q : Qc) : Qc :=
  match dt with
  | Int64 => Qc_of_Z (wrap64 (- 2 ^ 63) (Qnum q))
  | UInt64 => Qc_of_Z (wrap64 0 (Qnum q))
  | Float64 => q
  end.

(** ** pandas operations *)

Definition Qc_sum (l : list Qc) : Qc := foldr Qcplus 0 l.

(** A column that is asked for must be in the header; [exn] is the
    exception the caller raises otherwise. *)
Definition require (exn : string → error) (c : string) (df : DataFrame) :
    result unit :=
  if decide (c ∈ columns df) then Ok () else Raise (exn c).

(** The cell of row [r] in column [c]; [None] is NaN. *)
Definition cell (c : string) (r : Row) : option value := r !! c.

(** The number in a cell of a numeric column. *)
Definition number (c : string) (r : Row) : option Qc :=
  match r !! c with
  | Some (Num q) => Some q
  | _ => None
  end.

Definition holds_string (c : string) (r : Row) : bool :=
  match r !! c with
  | Some (Str _) => true
  | _ => false
  end.

(** Summing and dividing need a numeric column.  A column in which a string
    occurs has dtype object; the arithmetic on it is taken to end in a
    TypeError. *)
Definition numeric (c : string) (df : DataFrame) : result unit :=
  if forallb (λ r, negb (holds_string c r)) (rows df) then Ok ()
  else Raise (TypeError c).

Fixpoint assoc {K V} `{EqDecision K} (k : K) (l : list (K * V)) : option V :=
  match l with
  | [] => None
  | (k', v) :: l => if decide (k = k') then Some v else assoc k l
  end.

(** [groupby(...)[v].sum()] with the defaults [sort=True], [dropna=True] and
    [min_count=0]: one entry per label that occurs, in sorted order; rows
    whose key is NaN belong to no group; NaN values are skipped.  The values
    of a group are added up in the dtype [dt] of the column: [group_sum] is
    what they amount to, and the entry holds it as that dtype does. *)
Section groupby.
Context {K : Type} `{EqDecision K} (le : relation K) `{!RelDecision le}.
Variable key : Row → option K.
Variable num : Row → option Qc.

Definition group_labels (rs : list Row) : list K :=
  merge_sort le (remove_dups (omap key rs)).

Definition group (rs : list Row) (k : K) : list Row :=
  filter (λ r, key r = Some k) rs.

Definition group_sum (rs : list Row) (k : K) : Qc :=
  Qc_sum (omap num (group rs k)).

Definition groupby_sum (dt : dtype) (rs : list Row) : list (K * Qc) :=
  map (λ k, (k, wrap dt (group_sum rs k))) (group_labels rs).
End groupby.

(** The key of a row under [groupby([g, c])]: NaN as soon as one part is. *)
Definition key2 (g c : string) (r : Row) : option (value * value) :=
  match cell g r, cell c r with
  | Some a, Some b => Some (a, b)
  | _, _ => None
  end.

Definition pair_le (x y : value * value) : Prop :=
  if decide (x.1 = y.1) then value_le x.2 y.2 else value_le x.1 y.1.

Global Instance pair_le_dec : RelDecision pair_le.
Proof.
  intros x y. unfold pair_le. destruct (decide (x.1 = y.1)); apply _.
Defined.

(** A Series indexed by one label, and one indexed by a pair of labels. *)
Definition Series := list (value * Qc).
Definition Series2 := list (value * value * Qc).

(** A frame of floats with labelled rows and columns. *)
Record Frame := mkFrame {
  index : list value;
  labels : list value;
  data : list (list float64)
}.

Definition row (f : Frame) (g : value) : option (list float64) :=
  assoc g (zip (index f) (data f)).

Definition loc (f : Frame) (g c : value) : option float64 :=
  r ← row f g; assoc c (zip (labels f) r).

(** [df.groupby([g, c])[v].sum()] *)
Definition groupby2_sum (g c v : string) (df : DataFrame) : result Series2 :=
  _ ← require KeyError g df;
  _ ← require KeyError c df;
  _ ← require KeyError v df;
  _ ← numeric v df;
  Ok (groupby_sum pair_le (key2 g c) (number v) (dtype_of v (rows df))
        (rows df)).

(** [df.groupby(g)[v].sum()] *)
Definition groupby1_sum (g v : string) (df : DataFrame) : result Series :=
  _ ← require KeyError g df;
  _ ← require KeyError v df;
  _ ← numeric v df;
  Ok (groupby_sum value_le (cell g) (number v) (dtype_of v (rows df))
        (rows df)).

(** [s.unstack()]: the last index level becomes the columns; a pair that
    does not occur in [s] gives a NaN cell.  From here on the numbers are
    float64. *)
Definition unstack (s : Series2) : Frame :=
  let idx := merge_sort value_le (remove_dups (map (λ p, p.1.1) s)) in
  let cols := merge_sort value_le (remove_dups (map (λ p, p.1.2) s)) in
  {| index := idx;
     labels := cols;
     data := map (λ g, map (λ c, match assoc (g, c) s with
                                 | Some q => Fin q
                                 | None => NaN
                                 end) cols) idx |}.

(** [f.div(s, axis=0)]: rows are aligned on the union of the two indexes; a
    label that one side lacks gives a row of NaN. *)
Definition div_axis0 (f : Frame) (s : Series) : Frame :=
  let idx := merge_sort value_le (remove_dups (index f ++ map fst s)) in
  {| index := idx;
     labels := labels f;
     data := map (λ g, match row f g, assoc g s with
                       | Some r, Some t => map (λ x, fdiv x (Fin t)) r
                       | _, _ => map (λ _, NaN) (labels f)
                       end) idx |}.

(** [f * k] *)
Definition mul_scalar (f : Frame) (k : Qc) : Frame :=
  {| index := index f;
     labels := labels f;
     data := map (map (λ x, fmul x (Fin k))) (data f) |}.

(** ** The proportions pipelines (tbi.py, lines 62-67 and 109-114) *)

Definition proportions (g c v : string) (df : DataFrame) : result Frame :=
  s2 ← groupby2_sum g c v df;
  s1 ← groupby1_sum g v df;
  Ok (mul_scalar (div_axis0 (unstack s2) s1) (Qc_of_Z 100)).

Definition proportions_by_age_type (age : DataFrame) : result Frame :=
  proportions "age_group" "type" "number_est" age.

Definition proportions_by_year_type (year : DataFrame) : result Frame :=
  proportions "year" "type" "number_est" year.

(** ** Diagnosed injuries per 1000 recruits (tbi.py, lines 139-152) *)

(** [recruitment_numbers], the dict literal of lines 143-148. *)
Definition recruitment_numbers : gmap string Z :=
  {[ "Army" := 4849638%Z;
     "Navy" := 3010086%Z;
     "Marines" := 1738625%Z;
     "Air Force" := 2987583%Z ]}.

(** [military.groupby('service').agg({'diagnosed': 'sum'}).reset_index()] *)
Definition agg_diagnosed (military : DataFrame) : result Series :=
  _ ← require KeyError "service" military;
  _ ← require KeyError "diagnosed" military;
  _ ← numeric "diagnosed" military;
  Ok (groupby_sum value_le (cell "service") (number "diagnosed")
        (dtype_of "diagnosed" (rows military)) (rows military)).

(** [sort_values(by='diagnosed', ascending=True)]; the sums are never NaN.
    Rows with equal sums keep their order here; numpy leaves it open. *)
Definition diagnosed_le (x y : value * Qc) : Prop := x.2 ≤ y.2.

Global Instance diagnosed_le_dec : RelDecision diagnosed_le.
Proof. intros x y. unfold diagnosed_le. apply _. Defined.

Definition sort_by_diagnosed (s : Series) : Series :=
  merge_sort diagnosed_le s.

(** [Series.map(dict)]: a label that is not a key of the dict maps to NaN. *)
Definition map_dict (d : gmap string Z) (x : value) : float64 :=
  match x with
  | Str s => match d !! s with
             | Some n => Fin (Qc_of_Z n)
             | None => NaN
             end
  | Num _ => NaN
  end.

Record ServiceRow := mkServiceRow {
  service : value;
  diagnosed : Qc;
  recruited : float64;
  diagnosed_per_1000 : float64
}.

(** The two column assignments of lines 151-152. *)
Definition per_1000 (d : gmap string Z) (x : value * Qc) : ServiceRow :=
  let r := map_dict d x.1 in
  {| service := x.1;
     diagnosed := x.2;
     recruited := r;
     diagnosed_per_1000 := fmul (fdiv (Fin x.2) r) (Fin (Qc_of_Z 1000)) |}.

Definition military_service_data (military : DataFrame) :
    result (list ServiceRow) :=
  s ← agg_diagnosed military;
  Ok (map (per_1000 recruitment_numbers) (sort_by_diagnosed s)).

(** ** The plot inputs that are passed through (lines 81-89 and 192-202) *)

(** seaborn looks each named variable up in [data], in the order x, y, hue,
    style, and raises a ValueError that names the first one it cannot find;
    the cells themselves go to the plot as they are. *)
Fixpoint lookup_variables (vars : list string) (df : DataFrame) : result unit :=
  match vars with
  | [] => Ok ()
  | c :: vars => _ ← require ValueError c df; lookup_variables vars df
  end.

Definition plot_data (vars : list string) (df : DataFrame) :
    result (list (list (option value))) :=
  _ ← lookup_variables vars df;
  Ok (map (λ r, map (λ c, cell c r) vars) (rows df)).

Definition rates_by_mechanism (age : DataFrame) :=
  plot_data ["injury_mechanism"; "rate_est"] age.

Definition correlation_series (military : DataFrame) :=
  plot_data ["year"; "diagnosed"; "severity"; "service"] military.

(** ** The loader (tbi.py, lines 16-23) *)

Definition Tables : Type := DataFrame * DataFrame * DataFrame.

(** What outlives one run of the script inside the Streamlit process: the
    files on disk (as the tables they parse to), the log of the reads done so
    far, latest first, and the entry [st.cache_data] keeps for [load_data]. *)
Record Process := mkProcess {
  disk : gmap string DataFrame;
  reads : list string;
  cache : option Tables
}.

(** A computation that may raise and that changes the process either way. *)
Definition IO (A : Type) : Type := Process → result A * Process.

Global Instance IO_ret : MRet IO := λ A a p, (Ok a, p).
Global Instance IO_bind : MBind IO := λ A B f m p,
  match m p with
  | (Ok a, p') => f a p'
  | (Raise e, p') => (Raise e, p')
  end.

Definition lift {A} (r : result A) : IO A := λ p, (r, p).

(** [pd.read_csv(path)] *)
Definition read_csv (path : string) : IO DataFrame := λ p,
  let p' := mkProcess (disk p) (path :: reads p) (cache p) in
  match disk p !! path with
  | Some df => (Ok df, p')
  | None => (Raise (FileNotFoundError path), p')
  end.

(** The body of [load_data]. *)
Definition load_data_body : IO Tables :=
  age ← read_csv "tbi_age.csv";
  military ← read_csv "tbi_military.csv";
  year ← read_csv "tbi_year.csv";
  mret (age, military, year).

(** [@st.cache_data] on a function without arguments: one entry, no ttl and
    no size bound; a call that raises stores nothing. *)
Definition cache_data (f : IO Tables) : IO Tables := λ p,
  match cache p with
  | Some t => (Ok t, p)
  | None =>
      match f p with
      | (Ok t, p') => (Ok t, mkProcess (disk p') (reads p') (Some t))
      | (Raise e, p') => (Raise e, p')
      end
  end.

Definition load_data : IO Tables := cache_data load_data_body.

(** What happens to a process between and during runs: the script is run
    again (line 23 calls [load_data]), or a file changes on disk. *)
Inductive event :=
  | Rerun
  | WriteFile (path : string) (df : DataFrame)
  | DeleteFile (path : string).

Definition step (ev : event) (p : Process) : list (result Tables) * Process :=
  match ev with
  | Rerun => let '(r, p') := load_data p in ([r], p')
  | WriteFile path df =>
      ([], mkProcess (<[path := df]> (disk p)) (reads p) (cache p))
  | DeleteFile path =>
      ([], mkProcess (delete path (disk p)) (reads p) (cache p))
  end.

(** The results of the calls to [load_data], in order, and the process left. *)
Fixpoint run_events (evs : list event) (p : Process) :
    list (result Tables) * Process :=
  match evs with
  | [] => ([], p)
  | ev :: evs =>
      let '(out, p') := step ev p in
      let '(outs, p'') := run_events evs p' in
      (out ++ outs, p'')
  end.

(** ** The Visualizations section (lines 57-223) *)

Definition PlotData : Type := list (list (option value)).

(** What the section hands to the charts, in the order it computes them. *)
Record Charts := mkCharts {
  bars_age : Frame;
  violin : PlotData;
  bars_year : Frame;
  pie : list ServiceRow;
  scatter : PlotData
}.

(** The calls that draw: [DataFrame.plot(kind='bar', stacked=True, ...)]
    (lines 70 and 117), what [sns.violinplot] does once it has found its
    variables (line 81), [ax.pie] with its four-entry [explode] (line 156)
    and what [sns.scatterplot] does once it has found its variables
    (line 192), each with the [st.pyplot] that follows.  They belong to
    matplotlib, seaborn and Streamlit and are not embedded: the script
    fixes only what they are given and that an exception of theirs (a bar
    plot of an empty frame, a pie of other than four wedges or with a NaN
    wedge) ends the run there. *)
Record Charting := mkCharting {
  plot_bar : Frame → result unit;
  violinplot : PlotData → result unit;
  ax_pie : list ServiceRow → result unit;
  scatterplot : PlotData → result unit
}.

(** The statements of the section, top to bottom: each structure is
    computed, then drawn, before the next one is computed. *)
Definition visualizations (lib : Charting) (age military year : DataFrame) :
    result Charts :=
  a ← proportions_by_age_type age;
  _ ← plot_bar lib a;
  v ← rates_by_mechanism age;
  _ ← violinplot lib v;
  y ← proportions_by_year_type year;
  _ ← plot_bar lib y;
  m ← military_service_data military;
  _ ← ax_pie lib m;
  s ← correlation_series military;
  _ ← scatterplot lib s;
  Ok (mkCharts a v y m s).

(** ** The computations of the section, one at a time *)





(** ** The script as a whole (lines 23-236) *)

(** The choices of the two sidebar widgets: the section, and inside "Data
    Exploration" the dataset; the last branch of each chain is an [else]. *)
Inductive dataset :=
  | Civilian
  | Military
  | Yearly.

Inductive section_choice :=
  | Introduction
  | DataExploration (d : dataset)
  | Visualizations
  | Conclusions.

(** [df.head()]: the first five rows. *)
Definition head (df : DataFrame) : DataFrame :=
  mkDataFrame (columns df) (take 5 (rows df)).

Definition chosen (d : dataset) (t : Tables) : DataFrame :=
  match d with
  | Civilian => t.1.1
  | Military => t.1.2
  | Yearly => t.2
  end.

(** What one run of the script puts on the page, text aside. *)
Inductive page :=
  | IntroductionPage
  | PreviewPage (df : DataFrame)
  | ChartsPage (c : Charts)
  | ConclusionsPage.

(** One run of the script: line 23 loads the tables whatever the section,
    then the branch of the section runs. *)
Definition script (lib : Charting) (s : section_choice) : IO page :=
  t ← load_data;
  match s with
  | Introduction => mret IntroductionPage
  | DataExploration d => mret (PreviewPage (head (chosen d t)))
  | Visualizations =>
      c ← lift (visualizations lib t.1.1 t.1.2 t.2); mret (ChartsPage c)
  | Conclusions => mret ConclusionsPage
  end.
(** * The vocabulary of the claims *)

(** A sum [q] of column [V] as the pipeline holds it. *)
Definition held (V : string) (rs : list Row) (q : Qc) : Qc :=
  wrap (dtype_of V rs) q.

(** The percentage of category [c] within group [g], as the pipeline
    computes it from the rows [rs]: NaN when the pair has no row. *)
Definition percentage (G C V : string) (rs : list Row) (g c : value) :
    float64 :=
  if decide ((g, c) ∈ group_labels pair_le (key2 G C) rs)
  then fmul (fdiv (Fin (held V rs (group_sum (key2 G C) (number V) rs (g, c))))
                  (Fin (held V rs (group_sum (cell G) (number V) rs g))))
            (Fin (Qc_of_Z 100))
  else NaN.

(** The two Series of the pipeline, on the rows [rs]. *)
Definition cell_sums (G C V : string) (rs : list Row) : Series2 :=
  groupby_sum pair_le (key2 G C) (number V) (dtype_of V rs) rs.

Definition totals (G V : string) (rs : list Row) : Series :=
  groupby_sum value_le (cell G) (number V) (dtype_of V rs) rs.

(** The column labels of the result: the categories that occur in a row
    with both keys. *)
Definition categories (G C V : string) (rs : list Row) : list value :=
  labels (unstack (cell_sums G C V rs)).

Definition has_columns (G C V : string) (df : DataFrame) : Prop :=
  G ∈ columns df ∧ C ∈ columns df ∧ V ∈ columns df ∧ numeric V df = Ok ().

(** The frame the pipeline returns when nothing is raised. *)
Definition result_frame (G C V : string) (rs : list Row) : Frame :=
  mul_scalar (div_axis0 (unstack (cell_sums G C V rs)) (totals G V rs))
             (Qc_of_Z 100).


(** The total of group [g]: what the values of column [V] in the rows of
    the group amount to. *)
Definition group_total (G V : string) (df : DataFrame) (g : value) : Qc :=
  group_sum (cell G) (number V) (rows df) g.


(** The absolute values of column [V] add up to less than 2^63: whatever
    rows are summed, the sum stays inside the signed 64-bit range. *)
Definition magnitude (V : string) (rs : list Row) : Qc :=
  Qc_sum (map (λ r, Qcabs.Qcabs (default 0 (number V r))) rs).



(** The cell of the output at [(g, c)], read with NaN as the marker of a
    missing entry, as pandas reads it. *)
Definition entry (P : Frame) (g c : value) : option float64 :=
  x ← loc P g c; if is_nan x then None else Some x.

Definition nonnegative (V : string) (df : DataFrame) : Prop :=
  ∀ r q, r ∈ rows df → number V r = Some q → 0 ≤ q.


(** Every percentage of group [g] is NaN. *)
Definition all_nan (G C V : string) (df : DataFrame) (g : value) : Prop :=
  ∃ P, proportions G C V df = Ok P ∧ g ∈ index P
       ∧ ∀ c, c ∈ labels P → loc P g c = Some NaN.

(** The output has no cell for the pair [(g, c)]. *)
Definition absent (G C V : string) (df : DataFrame) (g c : value) : Prop :=
  ∃ P, proportions G C V df = Ok P ∧ loc P g c = None.


(** ** Tables to run the pipelines on *)

Definition cols_age : list string :=
  ["age_group"; "type"; "injury_mechanism"; "number_est"; "rate_est"].

Definition age_row (g t : string) (n : Z) : Row :=
  {[ "age_group" := Str g; "type" := Str t; "number_est" := Num (Qc_of_Z n) ]}.

(** The scenario of the specification. *)
Definition age_scenario : DataFrame :=
  mkDataFrame cols_age [age_row "0-4" "Fall" 100; age_row "0-4" "Other" 50].


(** The values of group "0-4" cancel out. *)
Definition age_mixed_sign : DataFrame :=
  mkDataFrame cols_age [age_row "0-4" "Fall" 5; age_row "0-4" "Other" (-5)].

(** Group "0-4" has total 0. *)
Definition age_zero_group : DataFrame :=
  mkDataFrame cols_age
    [age_row "0-4" "Fall" 0; age_row "0-4" "Other" 0; age_row "5-14" "Fall" 7].


Ltac by_computation := apply (bool_decide_unpack _); vm_compute; exact I.

Ltac by_rows := refine (proj1 (Forall_forall _ _) _); by_computation.

Ltac has_columns_by_computation :=
  split; [by_computation|split; [by_computation|split;
    [by_computation | vm_compute; reflexivity]]].


Definition has_service_columns (military : DataFrame) : Prop :=
  "service" ∈ columns military ∧ "diagnosed" ∈ columns military
  ∧ numeric "diagnosed" military = Ok ().

(** Following the specification ("sums diagnosed counts by service"): the
    sum of column [v] over the rows that [p] selects, one row after the
    other, an empty cell counting for nothing. *)
Fixpoint total_where (p : Row → bool) (v : string) (rs : list Row) : Qc :=
  match rs with
  | [] => 0
  | r :: rs => (if p r then default 0 (number v r) else 0) + total_where p v rs
  end.

(** The sum of [diagnosed] over the rows of service [s]. *)
Definition diagnosed_total (military : DataFrame) (s : value) : Qc :=
  total_where (λ r, bool_decide (cell "service" r = Some s)) "diagnosed"
    (rows military).

(** That sum as the [diagnosed] column holds it. *)
Definition diagnosed_sum (military : DataFrame) (s : value) : Qc :=
  held "diagnosed" (rows military) (diagnosed_total military s).


Definition marines_only : DataFrame :=
  mkDataFrame ["service"; "component"; "severity"; "diagnosed"; "year"]
    [ {[ "service" := Str "Marines"; "diagnosed" := Num (Qc_of_Z 1000) ]} ].


Ltac has_service_columns_by_computation :=
  split; [by_computation|split; [by_computation | vm_compute; reflexivity]].



(** A service that [recruitment_numbers] does not have. *)
Definition coast_guard : DataFrame :=
  mkDataFrame ["service"; "component"; "severity"; "diagnosed"; "year"]
    [ {[ "service" := Str "Coast Guard"; "diagnosed" := Num (Qc_of_Z 10) ]};
      {[ "service" := Str "Navy"; "diagnosed" := Num (Qc_of_Z 20) ]} ].





(** The number of calls to [load_data] that [evs] makes. *)
Fixpoint count_reruns (evs : list event) : nat :=
  match evs with
  | [] => 0
  | Rerun :: evs => S (count_reruns evs)
  | _ :: evs => count_reruns evs
  end.

Definition three_files : Process :=
  mkProcess {[ "tbi_age.csv" := age_scenario;
               "tbi_military.csv" := marines_only;
               "tbi_year.csv" := age_zero_group ]} [] None.

(** The number of times [path] has been read in process [p]. *)
Definition times_read (path : string) (p : Process) : nat :=
  length (filter (λ f, f = path) (reads p)).

(** Each table has been read from disk once, and no more. *)
Definition read_once (p : Process) : Prop :=
  ∀ path, path ∈ ["tbi_age.csv"; "tbi_military.csv"; "tbi_year.csv"] →
    times_read path p = 1%nat.

(** ** Further vocabulary *)

(** The files [load_data] reads, in the order it reads them. *)
Definition source_files : list string :=
  ["tbi_age.csv"; "tbi_military.csv"; "tbi_year.csv"].

(** The columns the Visualizations section asks each table for. *)
Definition age_schema (age : DataFrame) : Prop :=
  has_columns "age_group" "type" "number_est" age
  ∧ "injury_mechanism" ∈ columns age ∧ "rate_est" ∈ columns age.

Definition year_schema (year : DataFrame) : Prop :=
  has_columns "year" "type" "number_est" year.

Definition military_schema (military : DataFrame) : Prop :=
  has_service_columns military
  ∧ "year" ∈ columns military ∧ "severity" ∈ columns military.

(** A process in which the military file is not on disk. *)
Definition no_military_file : Process :=
  mkProcess {[ "tbi_age.csv" := age_scenario;
               "tbi_year.csv" := age_zero_group ]} [] None.

(** That process after a run, the arrival of the file and a second run. *)
Definition after_retry : Process :=
  (run_events [Rerun; WriteFile "tbi_military.csv" marines_only; Rerun]
     no_military_file).2.



(** A table with the header of the age file and no row. *)
Definition age_header_only : DataFrame := mkDataFrame cols_age [].

Definition military_row (s sev : string) (n y : Z) : Row :=
  {[ "service" := Str s; "severity" := Str sev;
     "diagnosed" := Num (Qc_of_Z n); "year" := Num (Qc_of_Z y) ]}.


(** One with the four services of the recruitment table. *)
Definition military_four_services : DataFrame :=
  mkDataFrame ["service"; "component"; "severity"; "diagnosed"; "year"]
    [ military_row "Army" "Mild" 30 2006; military_row "Navy" "Mild" 20 2006;
      military_row "Marines" "Mild" 10 2006;
      military_row "Air Force" "Mild" 15 2006;
      military_row "Army" "Severe" 5 2007 ].

(** A charting library that draws whatever it is given. *)
Definition draws_all : Charting :=
  mkCharting (λ _, Ok ()) (λ _, Ok ()) (λ _, Ok ()) (λ _, Ok ()).

(** An age and a year table with all the columns the section asks for. *)
Definition age_full_row (g t m : string) (n rate : Z) : Row :=
  {[ "age_group" := Str g; "type" := Str t; "injury_mechanism" := Str m;
     "number_est" := Num (Qc_of_Z n); "rate_est" := Num (Qc_of_Z rate) ]}.

Definition age_full : DataFrame :=
  mkDataFrame cols_age
    [ age_full_row "0-4" "Deaths" "Assault" 10 2;
      age_full_row "0-4" "Hospitalizations" "Assault" 40 7;
      age_full_row "0-4" "Deaths" "Unintentional Falls" 30 5;
      age_full_row "5-14" "Hospitalizations" "Unintentional Falls" 60 9;
      age_full_row "5-14" "Deaths" "Assault" 20 3;
      age_full_row "5-14" "Deaths" "Unintentional Falls" 25 4 ].

Definition year_row (y : Z) (t : string) (n : Z) : Row :=
  {[ "year" := Num (Qc_of_Z y); "type" := Str t;
     "number_est" := Num (Qc_of_Z n) ]}.

Definition year_full : DataFrame :=
  mkDataFrame ["injury_mechanism"; "type"; "year"; "rate_est"; "number_est"]
    [ year_row 2006 "Deaths" 10; year_row 2006 "Hospitalizations" 30;
      year_row 2007 "Deaths" 12; year_row 2007 "Hospitalizations" 36 ].

(** An integer, and a column of integers (empty cells aside). *)
Definition integral (q : Qc) : Prop := ∃ z, q = Qc_of_Z z.

Definition integers (V : string) (rs : list Row) : Prop :=
  ∀ r q, r ∈ rs → number V r = Some q → integral q.

(** The table [df] with the numbers of column [V] multiplied by [k], as
    after a change of unit. *)
Definition scale_value (k : Qc) (v : value) : value :=
  match v with
  | Num q => Num (k * q)
  | Str s => Str s
  end.

Definition scale_column (V : string) (k : Qc) (df : DataFrame) : DataFrame :=
  mkDataFrame (columns df) (map (alter (scale_value k) V) (rows df)).

(** * Properties *)

(** ** Lists, sums and lookups *)

Lemma assoc_map {K V} `{EqDecision K} (h : K → V) (ks : list K) (k : K) :
  assoc k (map (λ k, (k, h k)) ks)
  = if decide (k ∈ ks) then Some (h k) else None.
Proof.
  induction ks as [|k' ks IH].
  - by rewrite decide_False by apply not_elem_of_nil.
  - cbn [map assoc]. destruct (decide (k = k')) as [->|Hne].
    + by rewrite decide_True by left.
    + rewrite IH. destruct (decide (k ∈ ks)) as [Hin|Hin].
      * by rewrite decide_True by (by right).
      * rewrite decide_False; [done|]. by intros [?|?]%elem_of_cons.
Qed.

Lemma zip_map_self {K V} (h : K → V) (ks : list K) :
  zip ks (map h ks) = map (λ k, (k, h k)) ks.
Proof. induction ks; simpl; congruence. Qed.

Lemma assoc_zip_map {K V} `{EqDecision K} (h : K → V) (ks : list K) (k : K) :
  assoc k (zip ks (map h ks)) = if decide (k ∈ ks) then Some (h k) else None.
Proof. by rewrite zip_map_self, assoc_map. Qed.





(** ** Signs *)

Lemma Qc_sign_pos (q : Qc) : Qc_sign q = Gt ↔ 0 < q.
Proof. unfold Qc_sign. symmetry. apply Qcgt_alt. Qed.

Lemma Qc_sign_zero (q : Qc) : Qc_sign q = Eq ↔ q = 0.
Proof. unfold Qc_sign. symmetry. apply Qceq_alt. Qed.

(** ** Integers and wrap-around *)

Lemma Qc_of_Z_num (q : Qc) : Qden q = 1%positive → q = Qc_of_Z (Qnum q).
Proof.
  intros Hd. apply Qc_is_canon. destruct q as [[n d] Hq]. simpl in *.
  by subst d.
Qed.

Lemma integral_plus (a b : Qc) : integral a → integral b → integral (a + b).
Proof. intros [x ->] [y ->]. exists (x + y)%Z. by rewrite Z2Qc_inj_add. Qed.

Lemma integral_0 : integral 0.
Proof. exists 0%Z. by rewrite Z2Qc_inj_0. Qed.

Lemma integral_sum (l : list Qc) : Forall integral l → integral (Qc_sum l).
Proof.
  induction 1 as [|q l Hq _ IH]; [apply integral_0|].
  by apply integral_plus.
Qed.

Lemma wrap64_small (lo z : Z) : (lo ≤ z < lo + 2 ^ 64)%Z → wrap64 lo z = z.
Proof. intros Hz. unfold wrap64. rewrite Z.mod_small; lia. Qed.


Lemma wrap_of_Z (dt : dtype) (z : Z) :
  wrap dt (Qc_of_Z z)
  = match dt with
    | Int64 => Qc_of_Z (wrap64 (- 2 ^ 63) z)
    | UInt64 => Qc_of_Z (wrap64 0 z)
    | Float64 => Qc_of_Z z
    end.
Proof. by destruct dt. Qed.

Lemma wrap_0 (dt : dtype) : wrap dt 0 = 0.
Proof. destruct dt; [by apply Qc_is_canon..|done]. Qed.




(** ** The dtype of a column *)

Lemma integer_in_inv (lo hi : Z) (x : option value) :
  integer_in lo hi x = true →
  ∃ z, x = Some (Num (Qc_of_Z z)) ∧ (lo ≤ z < hi)%Z.
Proof.
  destruct x as [[s|q]|]; cbn [integer_in]; try done.
  rewrite !andb_true_iff, Pos.eqb_eq, Z.leb_le, Z.ltb_lt.
  intros [[Hd Hlo] Hhi]. exists (Qnum q). split; [|done].
  by rewrite <-Qc_of_Z_num.
Qed.

Lemma integer_in_of_Z (lo hi z : Z) :
  integer_in lo hi (Some (Num (Qc_of_Z z))) = bool_decide (lo ≤ z < hi)%Z.
Proof.
  simpl. destruct (Z.leb_spec lo z), (Z.ltb_spec z hi); simpl;
    by rewrite ?bool_decide_true, ?bool_decide_false by lia.
Qed.

(** A column that is not float64 holds an integer in every row. *)
Lemma dtype_of_integers (V : string) (rs : list Row) :
  dtype_of V rs ≠ Float64 → integers V rs.
Proof.
  unfold dtype_of. intros Hdt r q Hr Hq.
  assert (∃ lo hi, integer_in lo hi (r !! V) = true) as (lo & hi & Hin).
  { revert Hdt. destruct (forallb _ rs) eqn:H1.
    - intros _. rewrite forallb_forall in H1. eexists _, _. apply H1.
      by apply list_elem_of_In.
    - destruct (forallb (λ r, integer_in 0 _ (r !! V)) rs) eqn:H2;
        [intros _|done].
      rewrite forallb_forall in H2. eexists _, _. apply H2.
      by apply list_elem_of_In. }
  apply integer_in_inv in Hin as (z & Hz & _). unfold number in Hq.
  rewrite Hz in Hq. injection Hq as <-. by exists z.
Qed.

Lemma abs_le_magnitude (V : string) (rs : list Row) (r : Row) (q : Qc) :
  r ∈ rs → number V r = Some q → Qcabs.Qcabs q ≤ magnitude V rs.
Proof.
  induction rs as [|r' rs IH]; intros Hr Hq; [by apply elem_of_nil in Hr|].
  unfold magnitude in *. cbn [map Qc_sum foldr].
  fold (Qc_sum (map (λ r, Qcabs.Qcabs (default 0 (number V r))) rs)).
  assert (0 ≤ Qc_sum (map (λ r, Qcabs.Qcabs (default 0 (number V r))) rs))
    as Hnn.
  { clear. induction rs as [|r rs IH]; [done|]. simpl.
    apply Qcplus_nonneg_nonneg; [apply Qcabs.Qcabs_nonneg | done]. }
  apply elem_of_cons in Hr as [->|Hr].
  - rewrite Hq. simpl. rewrite <-(Qcplus_0_r (Qcabs.Qcabs q)) at 1.
    by apply Qcplus_le_compat.
  - eapply Qcle_trans; [by apply IH|].
    rewrite <-(Qcplus_0_l (Qc_sum _)) at 1.
    apply Qcplus_le_compat; [apply Qcabs.Qcabs_nonneg | done].
Qed.

Lemma Qc_of_Z_abs_lt (z b : Z) :
  Qcabs.Qcabs (Qc_of_Z z) < Qc_of_Z b → (- b < z < b)%Z.
Proof.
  intros Hlt. split.
  - assert (Qc_of_Z (- z) < Qc_of_Z b) as H%Z2Qc_inj_lt; [|lia].
    rewrite Z2Qc_inj_opp. eapply Qcle_lt_trans; [|exact Hlt].
    rewrite <-Qcabs.Qcabs_opp. apply Qcabs.Qcle_Qcabs.
  - apply Z2Qc_inj_lt. eapply Qcle_lt_trans; [|exact Hlt].
    apply Qcabs.Qcle_Qcabs.
Qed.

(** A uint64 column holds a number that int64 cannot. *)
Lemma uint64_column_large (V : string) (rs : list Row) :
  dtype_of V rs = UInt64 →
  ∃ r z, r ∈ rs ∧ number V r = Some (Qc_of_Z z) ∧ (2 ^ 63 ≤ z)%Z.
Proof.
  unfold dtype_of. destruct (forallb _ rs) eqn:H1; [done|].
  destruct (forallb (λ r, integer_in 0 _ (r !! V)) rs) eqn:H2; [|done].
  intros _.
  rewrite forallb_forall in H2.
  assert (∃ r, r ∈ rs ∧ integer_in (- 2 ^ 63) (2 ^ 63) (r !! V) = false)
    as (r & Hr & Hout).
  { clear H2. induction rs as [|r rs IH]; [done|]. simpl in H1.
    apply andb_false_iff in H1 as [H1|H1].
    - exists r. split; [by left | done].
    - destruct (IH H1) as (r' & Hr' & Hout). exists r'. split; [by right|done]. }
  destruct (integer_in_inv _ _ _ (H2 r (proj1 (list_elem_of_In _ _) Hr)))
    as (z & Hz & Hrange).
  exists r, z. split; [done|]. unfold number. rewrite Hz. split; [done|].
  rewrite Hz, integer_in_of_Z in Hout. apply bool_decide_eq_false in Hout. lia.
Qed.

(** ** Group-by *)

Section groupby_facts.
Context {K : Type} `{EqDecision K} (le : relation K) `{!RelDecision le}.
Variable key : Row → option K.
Variable num : Row → option Qc.

Lemma elem_of_group_labels (rs : list Row) (k : K) :
  k ∈ group_labels le key rs ↔ ∃ r, r ∈ rs ∧ key r = Some k.
Proof.
  unfold group_labels. rewrite merge_sort_Permutation, elem_of_remove_dups.
  apply list_elem_of_omap.
Qed.

Lemma NoDup_group_labels (rs : list Row) : NoDup (group_labels le key rs).
Proof.
  unfold group_labels. rewrite merge_sort_Permutation. apply NoDup_remove_dups.
Qed.

Lemma group_sum_cons (r : Row) (rs : list Row) (k : K) :
  group_sum key num (r :: rs) k
  = (if decide (key r = Some k) then default 0 (num r) else 0)
    + group_sum key num rs k.
Proof.
  unfold group_sum, group. rewrite filter_cons.
  case_decide; simpl; [|by rewrite Qcplus_0_l].
  destruct (num r); simpl; [done | by rewrite Qcplus_0_l].
Qed.





Lemma map_fst_groupby_sum (dt : dtype) (rs : list Row) :
  map fst (groupby_sum le key num dt rs) = group_labels le key rs.
Proof. unfold groupby_sum. rewrite map_map. apply map_id. Qed.


Lemma assoc_groupby_sum (dt : dtype) (rs : list Row) (k : K) :
  assoc k (groupby_sum le key num dt rs)
  = if decide (k ∈ group_labels le key rs)
    then Some (wrap dt (group_sum key num rs k)) else None.
Proof. unfold groupby_sum. apply (assoc_map (λ k, wrap dt _)). Qed.
End groupby_facts.
Section integer_groups.
Context {K : Type} `{EqDecision K}.
Variable key : Row → option K.
Variable V : string.

Lemma group_sum_integral (rs : list Row) (k : K) :
  integers V rs → integral (group_sum key (number V) rs k).
Proof.
  intros Hint. apply integral_sum, Forall_forall.
  intros q (r & Hr & Hq)%list_elem_of_omap.
  apply list_elem_of_filter in Hr as [_ Hr]. by apply (Hint r).
Qed.

Lemma abs_group_sum (rs : list Row) (k : K) :
  Qcabs.Qcabs (group_sum key (number V) rs k) ≤ magnitude V rs.
Proof.
  induction rs as [|r rs IH]; [done|].
  rewrite group_sum_cons. unfold magnitude in *. cbn [map Qc_sum foldr].
  fold (Qc_sum (map (λ r, Qcabs.Qcabs (default 0 (number V r))) rs)).
  eapply Qcle_trans; [apply Qcabs.Qcabs_triangle|].
  apply Qcplus_le_compat; [|done]. case_decide; [done|].
  rewrite (Qcabs.Qcabs_pos 0) by done. apply Qcabs.Qcabs_nonneg.
Qed.
End integer_groups.


(** Under [no_overflow] every sum over rows of the column is held as it is. *)
Lemma held_group_sum {K} `{EqDecision K} (key : Row → option K) (V : string)
    (rs : list Row) (k : K) :
  magnitude V rs < Qc_of_Z (2 ^ 63) →
  held V rs (group_sum key (number V) rs k) = group_sum key (number V) rs k.
Proof.
  intros Hsmall. unfold held. destruct (dtype_of V rs) eqn:Hdt; [..|done].
  - destruct (group_sum_integral key V rs k) as [z Hz].
    { apply dtype_of_integers. by rewrite Hdt. }
    pose proof (abs_group_sum key V rs k) as Habs. rewrite Hz in *.
    rewrite wrap_of_Z, wrap64_small; [done|].
    assert (- 2 ^ 63 < z < 2 ^ 63)%Z; [|lia].
    apply Qc_of_Z_abs_lt. by eapply Qcle_lt_trans.
  - exfalso. destruct (uint64_column_large V rs Hdt) as (r & z & Hr & Hq & Hz).
    pose proof (abs_le_magnitude V rs r _ Hr Hq) as Habs.
    assert (- 2 ^ 63 < z < 2 ^ 63)%Z; [|lia].
    apply Qc_of_Z_abs_lt. by eapply Qcle_lt_trans.
Qed.
(** ** The frame the proportions pipeline builds *)

Section proportions_facts.
Variables G C V : string.
Variable rs : list Row.

Lemma elem_of_unstack_index (g : value) :
  g ∈ index (unstack (cell_sums G C V rs))
  ↔ ∃ c, (g, c) ∈ group_labels pair_le (key2 G C) rs.
Proof.
  simpl. rewrite merge_sort_Permutation, elem_of_remove_dups.
  unfold cell_sums, groupby_sum. rewrite map_map. simpl.
  rewrite list_elem_of_fmap. split.
  - intros ([g' c] & -> & Hin). eauto.
  - intros (c & Hin). exists (g, c). done.
Qed.

Lemma elem_of_categories (c : value) :
  c ∈ categories G C V rs
  ↔ ∃ g, (g, c) ∈ group_labels pair_le (key2 G C) rs.
Proof.
  unfold categories. simpl.
  rewrite merge_sort_Permutation, elem_of_remove_dups.
  unfold cell_sums, groupby_sum. rewrite map_map. simpl.
  rewrite list_elem_of_fmap. split.
  - intros ([g c'] & -> & Hin). eauto.
  - intros (g & Hin). exists (g, c). done.
Qed.

Lemma NoDup_categories : NoDup (categories G C V rs).
Proof.
  unfold categories. simpl. rewrite merge_sort_Permutation.
  apply NoDup_remove_dups.
Qed.

Lemma row_unstack (g : value) :
  row (unstack (cell_sums G C V rs)) g
  = if decide (g ∈ index (unstack (cell_sums G C V rs)))
    then Some (map (λ c, match assoc (g, c) (cell_sums G C V rs) with
                         | Some q => Fin q
                         | None => NaN
                         end) (categories G C V rs))
    else None.
Proof. unfold row. simpl. by rewrite assoc_zip_map. Qed.

Lemma elem_of_result_index (g : value) :
  g ∈ index (result_frame G C V rs) ↔ g ∈ group_labels value_le (cell G) rs.
Proof.
  simpl. rewrite merge_sort_Permutation, elem_of_remove_dups, elem_of_app.
  unfold totals at 1, groupby_sum at 1. rewrite map_map. simpl. rewrite map_id.
  split; [|by right]. intros [Hin|Hin]; [|done].
  apply elem_of_unstack_index in Hin as (c & Hin).
  apply elem_of_group_labels in Hin as (r & Hr & Hk).
  apply elem_of_group_labels. exists r. split; [done|].
  unfold key2 in Hk. destruct (cell G r), (cell C r); naive_solver.
Qed.

Lemma labels_result_frame :
  labels (result_frame G C V rs) = categories G C V rs.
Proof. done. Qed.

Lemma row_result_frame (g : value) :
  g ∈ group_labels value_le (cell G) rs →
  row (result_frame G C V rs) g
  = Some (map (percentage G C V rs g) (categories G C V rs)).
Proof.
  intros Hg. unfold row, result_frame, mul_scalar, div_axis0.
  cbn [index data labels]. rewrite map_map, assoc_zip_map.
  rewrite decide_True by (by apply elem_of_result_index).
  f_equal. unfold totals. rewrite assoc_groupby_sum, decide_True by done.
  rewrite row_unstack.
  destruct (decide (g ∈ index (unstack (cell_sums G C V rs)))) as [Hin|Hin].
  - rewrite !map_map. apply map_ext. intros c. unfold percentage, held.
    unfold cell_sums. rewrite assoc_groupby_sum. by case_decide.
  - change (labels (unstack (cell_sums G C V rs))) with (categories G C V rs).
    rewrite map_map. apply map_ext. intros c. unfold percentage.
    rewrite decide_False; [done|]. intros Hp. apply Hin.
    apply elem_of_unstack_index. eauto.
Qed.

Lemma row_result_frame_absent (g : value) :
  g ∉ group_labels value_le (cell G) rs → row (result_frame G C V rs) g = None.
Proof.
  intros Hg. unfold row, result_frame, mul_scalar, div_axis0.
  cbn [index data labels]. rewrite map_map, assoc_zip_map.
  rewrite decide_False; [done|]. by rewrite elem_of_result_index.
Qed.

Lemma loc_result_frame (g c : value) :
  g ∈ group_labels value_le (cell G) rs →
  loc (result_frame G C V rs) g c
  = if decide (c ∈ categories G C V rs)
    then Some (percentage G C V rs g c) else None.
Proof.
  intros Hg. unfold loc. rewrite row_result_frame by done.
  rewrite labels_result_frame. apply assoc_zip_map.
Qed.
End proportions_facts.

Lemma has_columns_ok (G C V : string) (df : DataFrame) :
  has_columns G C V df →
  proportions G C V df = Ok (result_frame G C V (rows df)).
Proof.
  intros (HG & HC & HV & Hnum).
  unfold proportions, groupby2_sum, groupby1_sum, require.
  rewrite !decide_True by done. simpl. rewrite Hnum. done.
Qed.

(** ** Sums of percentages *)






Lemma held_0 (V : string) (rs : list Row) : held V rs 0 = 0.
Proof. apply wrap_0. Qed.

Section sums.
Variables G C V : string.
Variable rs : list Row.





(** With nonnegative values, a cell sum is between 0 and the total of
    its group. *)
Lemma cell_sum_bounds (g c : value) :
  (∀ r q, r ∈ rs → number V r = Some q → 0 ≤ q) →
  0 ≤ group_sum (key2 G C) (number V) rs (g, c)
  ∧ group_sum (key2 G C) (number V) rs (g, c)
    ≤ group_sum (cell G) (number V) rs g.
Proof.
  induction rs as [|r rs' IH]; intros Hpos.
  - unfold group_sum, group. simpl. done.
  - rewrite !group_sum_cons.
    destruct IH as [IH0 IH1]; [intros; eapply Hpos; [by right | done]|].
    assert (0 ≤ default 0 (number V r)) as Hr.
    { destruct (number V r) as [q|] eqn:Hq; simpl; [|done].
      eapply Hpos; [by left | done]. }
    destruct (decide (key2 G C r = Some (g, c))) as [Hk|Hk].
    + rewrite decide_True.
      * split; [by apply Qcplus_nonneg_nonneg|].
        by apply Qcplus_le_compat.
      * unfold key2 in Hk. destruct (cell G r), (cell C r); naive_solver.
    + split; [by apply Qcplus_nonneg_nonneg|].
      apply Qcplus_le_compat; [|done]. by case_decide.
Qed.
End sums.

(** * The claims about the proportions pipelines *)


Lemma Qclt_ne_0 (q : Qc) : 0 < q → q ≠ 0.
Proof. intros Hlt ->. by apply (Qclt_not_eq 0 0). Qed.




Section grouped_mass.
Context {K : Type} `{EqDecision K} (le : relation K) `{!RelDecision le}.
Variable key : Row → option K.
Variable V : string.
Variable rs : list Row.


End grouped_mass.




Lemma key2_Some (G C : string) (r : Row) (g c : value) :
  key2 G C r = Some (g, c) ↔ cell G r = Some g ∧ cell C r = Some c.
Proof.
  unfold key2. destruct (cell G r) as [a|], (cell C r) as [b|]; split;
    first [intros [= -> ->]; done | intros [[= ->] [= ->]]; done
          | intros [? ?]; done | done].
Qed.

Lemma elem_of_result_labels (G C V : string) (rs : list Row) (c : value) :
  c ∈ labels (result_frame G C V rs)
  ↔ ∃ r g, r ∈ rs ∧ cell G r = Some g ∧ cell C r = Some c.
Proof.
  rewrite labels_result_frame, elem_of_categories. split.
  - intros (g & (r & Hr & [Hg Hc]%key2_Some)%elem_of_group_labels). eauto.
  - intros (r & g & Hr & Hg & Hc). exists g. apply elem_of_group_labels.
    exists r. split; [done|]. by apply key2_Some.
Qed.

(** C3, as amended: for every table with the three columns, a combination
    of group key and category key that no row carries holds no percentage
    in the output, and the pipeline raises nothing.  The frame is dense:
    where the group key occurs in some row and the category occurs in some
    row that has a group key, the frame has a cell for the pair and the cell
    holds NaN; otherwise the frame has no cell for it. *)
Theorem missing_combination_is_nan (G C V : string) (df : DataFrame)
    (g c : value) :
  has_columns G C V df →
  (¬ ∃ r, r ∈ rows df ∧ cell G r = Some g ∧ cell C r = Some c) →
  ∃ P, proportions G C V df = Ok P
    ∧ (g ∈ index P ↔ ∃ r, r ∈ rows df ∧ cell G r = Some g)
    ∧ (c ∈ labels P ↔ ∃ r g', r ∈ rows df ∧ cell G r = Some g'
                               ∧ cell C r = Some c)
    ∧ loc P g c = (if decide (g ∈ index P ∧ c ∈ labels P)
                   then Some NaN else None)
    ∧ entry P g c = None.
Proof.
  intros Hcols Hno. eexists. split; [by apply has_columns_ok|].
  split; [by rewrite elem_of_result_index, elem_of_group_labels|].
  split; [by apply elem_of_result_labels|].
  assert (loc (result_frame G C V (rows df)) g c
          = if decide (g ∈ index (result_frame G C V (rows df))
                       ∧ c ∈ labels (result_frame G C V (rows df)))
            then Some NaN else None) as Hloc.
  { destruct (decide (g ∈ group_labels value_le (cell G) (rows df)))
      as [Hg|Hg].
    - rewrite loc_result_frame by done. rewrite labels_result_frame.
      destruct (decide (c ∈ categories G C V (rows df))) as [Hc|Hc].
      + rewrite decide_True by (by rewrite elem_of_result_index).
        f_equal. unfold percentage. rewrite decide_False; [done|].
        intros (r & Hr & [? ?]%key2_Some)%elem_of_group_labels. apply Hno.
        by exists r.
      + rewrite decide_False; [done|]. by intros [_ ?].
    - unfold loc. rewrite row_result_frame_absent by done.
      rewrite decide_False; [done|]. rewrite elem_of_result_index.
      by intros [? _]. }
  split; [done|]. unfold entry. rewrite Hloc. by case_decide.
Qed.

Lemma Qcle_antisym_0 (q : Qc) : 0 ≤ q → q ≤ 0 → q = 0.
Proof. intros. by apply Qcle_antisym. Qed.

(** C4, as amended: for every table with the three columns and nonnegative
    values, a group key that occurs and whose total is 0 makes the pipeline
    raise nothing; the frame it returns has a row for the group and every
    cell of that row is NaN. *)
Theorem zero_total_gives_nan (G C V : string) (df : DataFrame) (g : value) :
  has_columns G C V df →
  nonnegative V df →
  (∃ r, r ∈ rows df ∧ cell G r = Some g) →
  group_total G V df g = 0 →
  all_nan G C V df g.
Proof.
  intros Hcols Hpos Hocc HT. eexists. split; [by apply has_columns_ok|].
  assert (g ∈ group_labels value_le (cell G) (rows df)) as Hg
    by (by apply elem_of_group_labels).
  split; [by apply elem_of_result_index|].
  intros c Hc. rewrite labels_result_frame in Hc.
  rewrite loc_result_frame, decide_True by done. f_equal.
  unfold percentage. case_decide; [|done].
  destruct (cell_sum_bounds G C V (rows df) g c Hpos) as [H0 H1].
  unfold group_total in HT. rewrite HT in *.
  rewrite (Qcle_antisym_0 _ H0 H1), held_0. done.
Qed.

Example age_scenario_percentages :
  ∃ P, proportions_by_age_type age_scenario = Ok P
       ∧ index P = [Str "0-4"] ∧ labels P = [Str "Fall"; Str "Other"]
       ∧ data P = [[Fin (Q2Qc (200 # 3)); Fin (Q2Qc (100 # 3))]].
Proof.
  eexists. split; [vm_compute; reflexivity|].
  repeat split.
Qed.





(** C3 as stated fails: no row of the table carries "5-14" with "Other",
    and the output is not without the pair: the frame has a cell for it,
    which holds NaN. *)
Lemma missing_combination_counterexample :
  has_columns "age_group" "type" "number_est" age_zero_group
  ∧ (¬ ∃ r, r ∈ rows age_zero_group ∧ cell "age_group" r = Some (Str "5-14")
            ∧ cell "type" r = Some (Str "Other"))
  ∧ (∃ P, proportions "age_group" "type" "number_est" age_zero_group = Ok P
          ∧ index P = [Str "0-4"; Str "5-14"]
          ∧ labels P = [Str "Fall"; Str "Other"]
          ∧ loc P (Str "5-14") (Str "Other") = Some NaN)
  ∧ ¬ absent "age_group" "type" "number_est" age_zero_group
        (Str "5-14") (Str "Other").
Proof.
  split; [has_columns_by_computation|].
  split; [intros (r & Hr & Hg & Hc); revert r Hr Hg Hc; by_rows|].
  split; [eexists; split; [vm_compute; reflexivity | done]|].
  intros (P & HP & Hloc). vm_compute in HP. injection HP as <-.
  vm_compute in Hloc. discriminate.
Qed.

Lemma missing_combination_is_nan_witness :
  ∃ P, proportions "age_group" "type" "number_est" age_zero_group = Ok P
    ∧ (Str "5-14" ∈ index P
       ↔ ∃ r, r ∈ rows age_zero_group ∧ cell "age_group" r = Some (Str "5-14"))
    ∧ (Str "Other" ∈ labels P
       ↔ ∃ r g', r ∈ rows age_zero_group ∧ cell "age_group" r = Some g'
                 ∧ cell "type" r = Some (Str "Other"))
    ∧ loc P (Str "5-14") (Str "Other")
      = (if decide (Str "5-14" ∈ index P ∧ Str "Other" ∈ labels P)
         then Some NaN else None)
    ∧ entry P (Str "5-14") (Str "Other") = None.
Proof.
  apply missing_combination_is_nan; [has_columns_by_computation|].
  intros (r & Hr & Hg & Hc). revert r Hr Hg Hc. by_rows.
Defined.

(** C4 as stated fails where values of both signs cancel out: the total of
    "0-4" is 0 and its percentages are the two infinities. *)
Lemma zero_total_counterexample :
  has_columns "age_group" "type" "number_est" age_mixed_sign
  ∧ group_total "age_group" "number_est" age_mixed_sign (Str "0-4") = 0
  ∧ (∃ P, proportions "age_group" "type" "number_est" age_mixed_sign = Ok P
          ∧ loc P (Str "0-4") (Str "Fall") = Some PInf
          ∧ loc P (Str "0-4") (Str "Other") = Some NInf)
  ∧ ¬ all_nan "age_group" "type" "number_est" age_mixed_sign (Str "0-4").
Proof.
  split; [has_columns_by_computation|].
  split; [by apply Qc_is_canon|].
  split; [eexists; split; [vm_compute; reflexivity | by split]|].
  intros (P & HP & _ & Hall). vm_compute in HP. injection HP as <-.
  specialize (Hall (Str "Fall")). simpl in Hall.
  assert (Some PInf = Some NaN) as Heq; [|discriminate].
  rewrite <-Hall; [done | by left].
Qed.

Lemma zero_total_gives_nan_witness :
  all_nan "age_group" "type" "number_est" age_zero_group (Str "0-4").
Proof.
  apply zero_total_gives_nan.
  - has_columns_by_computation.
  - intros r q Hr. revert q. revert r Hr.
    refine (proj1 (Forall_forall _ _) _).
    repeat constructor; intros q Hq; vm_compute in Hq;
      injection Hq as <-; by vm_compute.
  - exists (age_row "0-4" "Fall" 0). split; [by left | by vm_compute].
  - by apply Qc_is_canon.
Defined.


(** * The claims about [military_service_data] *)



(** The sum of a group is the sum, row after row, over the rows whose key
    is the label of the group. *)
Lemma group_sum_total_where {K} `{EqDecision K} (key : Row → option K)
    (V : string) (rs : list Row) (k : K) :
  group_sum key (number V) rs k
  = total_where (λ r, bool_decide (key r = Some k)) V rs.
Proof.
  induction rs as [|r rs IH]; [done|].
  rewrite group_sum_cons, IH. simpl. f_equal.
  by destruct (decide (key r = Some k));
    [rewrite bool_decide_true | rewrite bool_decide_false].
Qed.

Lemma diagnosed_sum_held (military : DataFrame) (s : value) :
  diagnosed_sum military s
  = wrap (dtype_of "diagnosed" (rows military))
      (group_sum (cell "service") (number "diagnosed") (rows military) s).
Proof.
  unfold diagnosed_sum, diagnosed_total, held.
  by rewrite <-group_sum_total_where.
Qed.


(** The sums per service, before they are sorted. *)
Lemma agg_series (military : DataFrame) :
  groupby_sum value_le (cell "service") (number "diagnosed")
    (dtype_of "diagnosed" (rows military)) (rows military)
  = map (λ s, (s, diagnosed_sum military s))
      (group_labels value_le (cell "service") (rows military)).
Proof.
  unfold groupby_sum. apply map_ext. intros s. by rewrite diagnosed_sum_held.
Qed.

Lemma agg_diagnosed_ok (military : DataFrame) :
  has_service_columns military →
  agg_diagnosed military
  = Ok (map (λ s, (s, diagnosed_sum military s))
          (group_labels value_le (cell "service") (rows military))).
Proof.
  intros (Hs & Hd & Hnum). unfold agg_diagnosed, require.
  rewrite !decide_True by done. simpl. rewrite Hnum. simpl.
  by rewrite agg_series.
Qed.

Lemma military_service_data_ok (military : DataFrame) :
  has_service_columns military →
  military_service_data military
  = Ok (map (per_1000 recruitment_numbers)
         (sort_by_diagnosed
            (map (λ s, (s, diagnosed_sum military s))
               (group_labels value_le (cell "service") (rows military))))).
Proof.
  intros Hcols. unfold military_service_data.
  by rewrite agg_diagnosed_ok.
Qed.







(** * The claim about missing columns *)







(** * The claim about the loader *)

Lemma load_data_hit (p : Process) (t : Tables) :
  cache p = Some t → load_data p = (Ok t, p).
Proof. intros Hc. unfold load_data, cache_data. by rewrite Hc. Qed.

Lemma load_data_miss (p : Process) (a m y : DataFrame) :
  cache p = None →
  disk p !! "tbi_age.csv" = Some a →
  disk p !! "tbi_military.csv" = Some m →
  disk p !! "tbi_year.csv" = Some y →
  load_data p
  = (Ok (a, m, y),
     mkProcess (disk p)
       ("tbi_year.csv" :: "tbi_military.csv" :: "tbi_age.csv" :: reads p)
       (Some (a, m, y))).
Proof.
  intros Hc Ha Hm Hy. unfold load_data, cache_data. rewrite Hc.
  unfold load_data_body, mbind, IO_bind, read_csv.
  rewrite Ha. simpl. rewrite Hm. simpl. by rewrite Hy.
Qed.

(** Once the entry is in the cache, nothing that happens reads the disk or
    changes the entry, and every call returns it. *)
Lemma run_events_cached (evs : list event) (p : Process) (t : Tables) :
  cache p = Some t →
  reads (run_events evs p).2 = reads p
  ∧ cache (run_events evs p).2 = Some t
  ∧ Forall (λ r, r = Ok t) (run_events evs p).1.
Proof.
  revert p. induction evs as [|ev evs IH]; intros p Hc; [done|].
  simpl. destruct (step ev p) as [out p'] eqn:Hstep.
  assert (reads p' = reads p ∧ cache p' = Some t ∧ Forall (λ r, r = Ok t) out)
    as (Hr & Hc' & Hout).
  { destruct ev; simpl in Hstep.
    - rewrite (load_data_hit p t Hc) in Hstep. injection Hstep as <- <-.
      repeat split; [done | by constructor].
    - injection Hstep as <- <-. done.
    - injection Hstep as <- <-. done. }
  specialize (IH p' Hc'). destruct (run_events evs p') as [outs p''].
  simpl in *. destruct IH as (IHr & IHc & IHo).
  split; [congruence|]. split; [done|]. by apply Forall_app.
Qed.

Lemma length_run_events (evs : list event) (p : Process) :
  length (run_events evs p).1 = count_reruns evs.
Proof.
  revert p. induction evs as [|ev evs IH]; intros p; [done|].
  simpl. destruct (step ev p) as [out p'] eqn:Hstep.
  specialize (IH p'). destruct (run_events evs p') as [outs p''].
  simpl in *. rewrite length_app, IH.
  destruct ev; simpl in Hstep.
  - destruct (load_data p). by injection Hstep as <- <-.
  - by injection Hstep as <- <-.
  - by injection Hstep as <- <-.
Qed.

(** C7, as amended: in a process that starts with an empty cache and no
    read done, and whose three files are on disk at the first call, whatever
    follows the first call (further calls, files rewritten or deleted), each
    table has been read exactly once, by the first call, and every call
    returns the tables the first call loaded. *)
Theorem load_data_reads_once (p : Process) (a m y : DataFrame)
    (evs : list event) :
  cache p = None → reads p = [] →
  disk p !! "tbi_age.csv" = Some a →
  disk p !! "tbi_military.csv" = Some m →
  disk p !! "tbi_year.csv" = Some y →
  reads (run_events (Rerun :: evs) p).2
  = ["tbi_year.csv"; "tbi_military.csv"; "tbi_age.csv"]
  ∧ (run_events (Rerun :: evs) p).1
    = replicate (S (count_reruns evs)) (Ok (a, m, y)).
Proof.
  intros Hc Hr Ha Hm Hy. simpl.
  rewrite (load_data_miss p a m y Hc Ha Hm Hy), Hr.
  set (p1 := mkProcess _ _ _).
  destruct (run_events_cached evs p1 (a, m, y) eq_refl) as (Hreads & _ & Hout).
  pose proof (length_run_events evs p1) as Hlen.
  destruct (run_events evs p1) as [outs p']. simpl in *.
  split; [done|]. f_equal. rewrite <-Hlen.
  clear Hlen Hreads.
  induction Hout as [|r outs -> _ IH]; [done|]. simpl. by rewrite <-IH.
Qed.

Lemma load_data_reads_once_witness :
  let evs := [Rerun; DeleteFile "tbi_age.csv";
              WriteFile "tbi_year.csv" age_scenario; Rerun] in
  reads (run_events (Rerun :: evs) three_files).2
  = ["tbi_year.csv"; "tbi_military.csv"; "tbi_age.csv"]
  ∧ (run_events (Rerun :: evs) three_files).1
    = replicate (S (count_reruns evs))
        (Ok (age_scenario, marines_only, age_zero_group)).
Proof.
  intros evs. apply load_data_reads_once.
  - reflexivity.
  - reflexivity.
  - vm_compute; reflexivity.
  - vm_compute; reflexivity.
  - vm_compute; reflexivity.
Defined.


(** C7 as stated fails where a file is missing at the first call: the
    failed load is not remembered, and once the file is there the next call
    reads the age file a second time. *)
Lemma load_data_reads_counterexample :
  cache no_military_file = None ∧ reads no_military_file = []
  ∧ reads after_retry
    = ["tbi_year.csv"; "tbi_military.csv"; "tbi_age.csv";
       "tbi_military.csv"; "tbi_age.csv"]
  ∧ times_read "tbi_age.csv" after_retry = 2%nat
  ∧ ¬ read_once after_retry.
Proof.
  split; [done|]. split; [done|]. split; [by vm_compute|].
  split; [by vm_compute|].
  intros Hall. specialize (Hall "tbi_age.csv" (list_elem_of_here _ _)).
  vm_compute in Hall. discriminate.
Qed.
(** * Further properties of the code *)

(** ** The order of the labels *)

Lemma ascii_compare_lt_trans (a b c : Ascii.ascii) :
  Ascii.compare a b = Lt → Ascii.compare b c = Lt → Ascii.compare a c = Lt.
Proof. unfold Ascii.compare. rewrite !N.compare_lt_iff. lia. Qed.

Lemma string_compare_trans (s1 s2 s3 : string) :
  String.compare s1 s2 ≠ Gt → String.compare s2 s3 ≠ Gt →
  String.compare s1 s3 ≠ Gt.
Proof.
  revert s2 s3. induction s1 as [|a s1 IH]; intros [|b s2] [|c s3];
    simpl; try done.
  destruct (Ascii.compare a b) eqn:Hab.
  - apply Ascii.compare_eq_iff in Hab as ->.
    destruct (Ascii.compare b c); [apply IH | auto..].
  - destruct (Ascii.compare b c) eqn:Hbc.
    + apply Ascii.compare_eq_iff in Hbc as <-. by rewrite Hab.
    + by rewrite (ascii_compare_lt_trans a b c).
    + auto.
  - auto.
Qed.

Lemma string_leb_trans (s1 s2 s3 : string) :
  String.leb s1 s2 = true → String.leb s2 s3 = true → String.leb s1 s3 = true.
Proof.
  unfold String.leb. intros H1 H2.
  assert (String.compare s1 s3 ≠ Gt) as Ht.
  { apply (string_compare_trans s1 s2 s3).
    - by destruct (String.compare s1 s2).
    - by destruct (String.compare s2 s3). }
  by destruct (String.compare s1 s3).
Qed.

Lemma value_le_num (a b : Qc) : value_le (Num a) (Num b) ↔ a ≤ b.
Proof.
  unfold value_le. simpl. rewrite Qcle_alt.
  destruct (a ?= b); split; try done; intros H; by destruct H.
Qed.

Global Instance value_le_total : Total value_le.
Proof.
  intros [s1|a] [s2|b].
  - unfold value_le. simpl. apply String.leb_total.
  - by right.
  - by left.
  - rewrite !value_le_num. apply (total Qcle).
Qed.

Global Instance value_le_trans : Transitive value_le.
Proof.
  intros [s1|a] [s2|b] [s3|c]; try done.
  - apply string_leb_trans.
  - rewrite !value_le_num. apply Qcle_trans.
Qed.

Global Instance value_le_antisym : AntiSymm (=) value_le.
Proof.
  intros [s1|a] [s2|b]; try done.
  - unfold value_le. simpl. intros H1 H2. f_equal. by apply String.leb_antisym.
  - rewrite !value_le_num. intros H1 H2. f_equal. by apply Qcle_antisym.
Qed.

(** ** More on the frame of the proportions pipelines *)

Lemma proportions_Ok_inv (G C V : string) (df : DataFrame) (P : Frame) :
  proportions G C V df = Ok P →
  has_columns G C V df ∧ P = result_frame G C V (rows df).
Proof.
  unfold proportions, groupby2_sum, groupby1_sum, require, has_columns.
  intros HP. repeat case_decide; simpl in HP; try discriminate.
  destruct (numeric V df) as [[]|e]; simpl in HP; [|discriminate].
  injection HP as <-. done.
Qed.

Lemma index_result_frame_groups (G C V : string) (rs : list Row) :
  index (result_frame G C V rs) ≡ₚ group_labels value_le (cell G) rs.
Proof.
  apply NoDup_Permutation.
  - simpl. rewrite merge_sort_Permutation. apply NoDup_remove_dups.
  - apply NoDup_group_labels.
  - intros g. apply elem_of_result_index.
Qed.

Lemma data_result_frame (G C V : string) (rs : list Row) :
  data (result_frame G C V rs)
  = map (λ g, map (percentage G C V rs g) (categories G C V rs))
        (index (result_frame G C V rs)).
Proof.
  unfold result_frame, mul_scalar, div_axis0. cbn [index data labels].
  rewrite map_map. apply map_ext_in. intros g Hg%list_elem_of_In.
  assert (g ∈ group_labels value_le (cell G) rs) as Hin
    by (by apply (elem_of_result_index G C V)).
  unfold totals. rewrite assoc_groupby_sum, decide_True by done.
  rewrite row_unstack.
  destruct (decide (g ∈ index (unstack (cell_sums G C V rs)))) as [Hw|Hw].
  - rewrite !map_map. apply map_ext. intros c. unfold percentage, held.
    unfold cell_sums. rewrite assoc_groupby_sum. by case_decide.
  - change (labels (unstack (cell_sums G C V rs))) with (categories G C V rs).
    rewrite map_map. apply map_ext. intros c. unfold percentage.
    rewrite decide_False; [done|]. intros Hp. apply Hw.
    apply elem_of_unstack_index. eauto.
Qed.


Lemma frame_eq (a b : Frame) :
  index a = index b → labels a = labels b → data a = data b → a = b.
Proof. destruct a, b. simpl. congruence. Qed.

Section permuted_rows.
Context {K : Type} `{EqDecision K} (le : relation K) `{!RelDecision le}.
Variable key : Row → option K.
Variable num : Row → option Qc.


End permuted_rows.







(** X1: the frame of the proportions pipeline is well formed: its index
    holds the group keys that occur in the table and its columns the
    categories that occur in a row with a group key, each once and in
    ascending order, and the data has one row per index label and one cell
    per column label. *)
Theorem proportions_frame_shape (G C V : string) (df : DataFrame) (P : Frame) :
  proportions G C V df = Ok P →
  (StronglySorted value_le (index P) ∧ NoDup (index P)
   ∧ ∀ g, g ∈ index P ↔ ∃ r, r ∈ rows df ∧ cell G r = Some g)
  ∧ (StronglySorted value_le (labels P) ∧ NoDup (labels P)
     ∧ ∀ c, c ∈ labels P
            ↔ ∃ r, r ∈ rows df ∧ is_Some (cell G r) ∧ cell C r = Some c)
  ∧ length (data P) = length (index P)
  ∧ Forall (λ cells, length cells = length (labels P)) (data P).
Proof.
  intros [_ ->]%proportions_Ok_inv. repeat split.
  - apply StronglySorted_merge_sort; apply _.
  - rewrite index_result_frame_groups. apply NoDup_group_labels.
  - intros Hg. apply elem_of_result_index in Hg.
    by apply elem_of_group_labels in Hg.
  - intros Hg. apply elem_of_result_index. by apply elem_of_group_labels.
  - apply StronglySorted_merge_sort; apply _.
  - apply NoDup_categories.
  - intros Hc. rewrite labels_result_frame in Hc.
    apply elem_of_categories in Hc as (g & Hg).
    apply elem_of_group_labels in Hg as (r & Hr & Hk).
    apply key2_Some in Hk as [Hg Hc]. exists r. by rewrite Hg.
  - intros (r & Hr & [g Hg] & Hc). rewrite labels_result_frame.
    apply elem_of_categories. exists g. apply elem_of_group_labels.
    exists r. split; [done|]. by apply key2_Some.
  - by rewrite data_result_frame, length_map.
  - rewrite data_result_frame, labels_result_frame.
    apply Forall_forall. intros cells (g & -> & _)%list_elem_of_fmap.
    by rewrite length_map.
Qed.






(** X5: a table with the three columns and no row gives the empty frame,
    not an exception. *)
Theorem proportions_of_empty_table (G C V : string) (df : DataFrame) :
  G ∈ columns df → C ∈ columns df → V ∈ columns df →
  rows df = [] →
  proportions G C V df = Ok (mkFrame [] [] []).
Proof.
  intros HG HC HV Hrows.
  unfold proportions, groupby2_sum, groupby1_sum, require, numeric.
  rewrite !decide_True by done. by rewrite Hrows.
Qed.

(** ** More on [military_service_data] *)


Global Instance diagnosed_le_total : Total diagnosed_le.
Proof. intros x y. apply (total Qcle). Qed.

Global Instance diagnosed_le_trans : Transitive diagnosed_le.
Proof. intros x y z. apply Qcle_trans. Qed.

Lemma military_service_data_Ok_inv (military : DataFrame)
    (rs : list ServiceRow) :
  military_service_data military = Ok rs →
  has_service_columns military
  ∧ rs = map (per_1000 recruitment_numbers)
           (sort_by_diagnosed
              (groupby_sum value_le (cell "service") (number "diagnosed")
                 (dtype_of "diagnosed" (rows military)) (rows military))).
Proof.
  unfold military_service_data, agg_diagnosed, require, has_service_columns.
  intros Hrs. repeat case_decide; simpl in Hrs; try discriminate.
  destruct (numeric "diagnosed" military) as [[]|e]; simpl in Hrs;
    [|discriminate].
  injection Hrs as <-. done.
Qed.

Lemma services_of_service_data (s : Series) :
  map service (map (per_1000 recruitment_numbers) (sort_by_diagnosed s))
  ≡ₚ map fst s.
Proof.
  rewrite map_map. simpl. unfold sort_by_diagnosed.
  by rewrite merge_sort_Permutation.
Qed.

(** X6: the rows of [military_service_data] come in ascending order of
    [diagnosed], and no service has two rows. *)
Theorem service_rows_sorted (military : DataFrame) (rs : list ServiceRow) :
  military_service_data military = Ok rs →
  StronglySorted (λ x y, diagnosed x ≤ diagnosed y) rs
  ∧ NoDup (map service rs).
Proof.
  intros [_ ->]%military_service_data_Ok_inv. split.
  - apply (StronglySorted_fmap _ diagnosed_le); [done|].
    apply StronglySorted_merge_sort; apply _.
  - rewrite services_of_service_data, map_fst_groupby_sum.
    apply NoDup_group_labels.
Qed.






(** ** More on the loader *)


(** X10: when a source file is not on disk and nothing is cached, the call
    raises FileNotFoundError for the first such file in reading order; the
    files before it have been read, those after it have not, and nothing
    is stored in the cache. *)
Theorem load_data_missing_file (p : Process) (before after : list string)
    (path : string) :
  cache p = None →
  source_files = before ++ path :: after →
  (∀ f, f ∈ before → is_Some (disk p !! f)) →
  disk p !! path = None →
  load_data p
  = (Raise (FileNotFoundError path),
     mkProcess (disk p) (path :: reverse before ++ reads p) None).
Proof.
  intros Hc Hfiles Hbefore Hpath.
  unfold load_data, cache_data. rewrite Hc.
  unfold load_data_body, mbind, IO_bind, read_csv.
  unfold source_files in Hfiles.
  destruct before as [|f1 [|f2 [|f3 before]]]; simpl in Hfiles;
    simplify_eq; simpl.
  - by rewrite Hpath, Hc.
  - destruct (Hbefore "tbi_age.csv") as [a Ha]; [by left|].
    rewrite Ha. simpl. by rewrite Hpath, Hc.
  - destruct (Hbefore "tbi_age.csv") as [a Ha]; [by left|].
    destruct (Hbefore "tbi_military.csv") as [m Hm]; [by right; left|].
    rewrite Ha. simpl. rewrite Hm. simpl. by rewrite Hpath, Hc.
  - by destruct before.
Qed.

Lemma load_data_missing_file_witness :
  load_data no_military_file
  = (Raise (FileNotFoundError "tbi_military.csv"),
     mkProcess (disk no_military_file)
       ("tbi_military.csv" :: reverse ["tbi_age.csv"] ++ reads no_military_file)
       None).
Proof.
  apply (load_data_missing_file no_military_file ["tbi_age.csv"]
           ["tbi_year.csv"] "tbi_military.csv").
  - reflexivity.
  - reflexivity.
  - refine (proj1 (Forall_forall _ _) _). by_computation.
  - vm_compute; reflexivity.
Defined.

Lemma load_data_without_military (p : Process) (a : DataFrame) :
  cache p = None →
  disk p !! "tbi_age.csv" = Some a →
  disk p !! "tbi_military.csv" = None →
  load_data p
  = (Raise (FileNotFoundError "tbi_military.csv"),
     mkProcess (disk p) ("tbi_military.csv" :: "tbi_age.csv" :: reads p) None).
Proof.
  intros Hc Ha Hm. unfold load_data, cache_data. rewrite Hc.
  unfold load_data_body, mbind, IO_bind, read_csv.
  rewrite Ha. simpl. by rewrite Hm, Hc.
Qed.

(** X11: a failed load is not remembered.  With nothing cached, the age
    and year files on disk and the military file missing, a first run
    raises; once the military file is written, the next run reads all three
    files, the age file for the second time, and returns the tables. *)
Theorem load_data_retries (p : Process) (a m y : DataFrame) :
  cache p = None →
  disk p !! "tbi_age.csv" = Some a →
  disk p !! "tbi_military.csv" = None →
  disk p !! "tbi_year.csv" = Some y →
  (run_events [Rerun; WriteFile "tbi_military.csv" m; Rerun] p).1
  = [Raise (FileNotFoundError "tbi_military.csv"); Ok (a, m, y)]
  ∧ reads (run_events [Rerun; WriteFile "tbi_military.csv" m; Rerun] p).2
    = ["tbi_year.csv"; "tbi_military.csv"; "tbi_age.csv";
       "tbi_military.csv"; "tbi_age.csv"] ++ reads p.
Proof.
  intros Hc Ha Hm Hy. simpl.
  rewrite (load_data_without_military p a Hc Ha Hm). simpl.
  rewrite (load_data_miss _ a m y); simpl.
  - done.
  - done.
  - by rewrite lookup_insert_ne.
  - by rewrite lookup_insert_eq.
  - by rewrite lookup_insert_ne.
Qed.

Lemma load_data_retries_witness :
  (run_events [Rerun; WriteFile "tbi_military.csv" marines_only; Rerun]
     no_military_file).1
  = [Raise (FileNotFoundError "tbi_military.csv");
     Ok (age_scenario, marines_only, age_zero_group)]
  ∧ reads (run_events
             [Rerun; WriteFile "tbi_military.csv" marines_only; Rerun]
             no_military_file).2
    = ["tbi_year.csv"; "tbi_military.csv"; "tbi_age.csv";
       "tbi_military.csv"; "tbi_age.csv"] ++ reads no_military_file.
Proof.
  apply load_data_retries.
  - reflexivity.
  - vm_compute; reflexivity.
  - vm_compute; reflexivity.
  - vm_compute; reflexivity.
Defined.

(** ** The script as a whole *)

Lemma script_loaded (lib : Charting) (s : section_choice) (p p' : Process)
    (t : Tables) :
  load_data p = (Ok t, p') →
  script lib s p
  = match s with
    | Introduction => (Ok IntroductionPage, p')
    | DataExploration d => (Ok (PreviewPage (head (chosen d t))), p')
    | Visualizations =>
        match visualizations lib t.1.1 t.1.2 t.2 with
        | Ok c => (Ok (ChartsPage c), p')
        | Raise e => (Raise e, p')
        end
    | Conclusions => (Ok ConclusionsPage, p')
    end.
Proof.
  intros Hl. unfold script, mbind, IO_bind. rewrite Hl.
  destruct s; try done.
Qed.

(** X12: every page needs the three tables: when [load_data] raises, the
    run of the script raises the same exception whatever section is
    selected, the two text pages included, and does nothing else. *)
Theorem script_needs_tables (lib : Charting) (s : section_choice)
    (p : Process) (e : error) :
  (load_data p).1 = Raise e →
  (script lib s p).1 = Raise e ∧ (script lib s p).2 = (load_data p).2.
Proof.
  intros Hl. unfold script, mbind, IO_bind.
  destruct (load_data p) as [[t|e'] p']; simpl in *; [done|].
  by injection Hl as ->.
Qed.

Lemma script_needs_tables_witness :
  (script draws_all Introduction no_military_file).1
  = Raise (FileNotFoundError "tbi_military.csv")
  ∧ (script draws_all Introduction no_military_file).2
    = (load_data no_military_file).2.
Proof.
  apply script_needs_tables. vm_compute; reflexivity.
Defined.

(** X13: once the tables are loaded, the pages other than Visualizations
    raise nothing, whatever columns and cells the tables have.  The Data
    Exploration page shows the header of the chosen table and its first
    five rows in order, or all of them when there are fewer. *)
Theorem other_pages_never_raise (lib : Charting) (p : Process) (t : Tables) :
  (load_data p).1 = Ok t →
  (script lib Introduction p).1 = Ok IntroductionPage
  ∧ (script lib Conclusions p).1 = Ok ConclusionsPage
  ∧ ∀ d, ∃ df,
      (script lib (DataExploration d) p).1 = Ok (PreviewPage df)
      ∧ columns df = columns (chosen d t)
      ∧ rows df `prefix_of` rows (chosen d t)
      ∧ length (rows df) = min 5 (length (rows (chosen d t))).
Proof.
  intros Hl. destruct (load_data p) as [r p'] eqn:Hload. simpl in Hl. subst r.
  rewrite !(script_loaded lib _ p p' t Hload). split; [done|]. split; [done|].
  intros d. exists (head (chosen d t)).
  rewrite (script_loaded lib _ p p' t Hload). split; [done|]. split; [done|].
  split.
  - apply prefix_take.
  - apply length_take.
Qed.

Lemma other_pages_never_raise_witness :
  (script draws_all Introduction three_files).1 = Ok IntroductionPage
  ∧ (script draws_all Conclusions three_files).1 = Ok ConclusionsPage
  ∧ ∀ d, ∃ df,
      (script draws_all (DataExploration d) three_files).1
      = Ok (PreviewPage df)
      ∧ columns df
        = columns (chosen d (age_scenario, marines_only, age_zero_group))
      ∧ rows df
        `prefix_of` rows (chosen d (age_scenario, marines_only, age_zero_group))
      ∧ length (rows df)
        = min 5 (length (rows
            (chosen d (age_scenario, marines_only, age_zero_group)))).
Proof.
  apply other_pages_never_raise. vm_compute; reflexivity.
Defined.

Lemma lookup_variables_Ok (vars : list string) (df : DataFrame) :
  lookup_variables vars df = Ok () ↔ Forall (λ c, c ∈ columns df) vars.
Proof.
  induction vars as [|c vars IH]; simpl.
  - split; [by constructor | done].
  - unfold require. rewrite Forall_cons. case_decide; simpl.
    + rewrite IH. split; [by split | by intros [_ ?]].
    + split; [done | by intros [? _]].
Qed.

Lemma plot_data_Ok (vars : list string) (df : DataFrame) :
  (∃ d, plot_data vars df = Ok d) ↔ Forall (λ c, c ∈ columns df) vars.
Proof.
  rewrite <-lookup_variables_Ok. unfold plot_data.
  destruct (lookup_variables vars df) as [[]|e]; simpl.
  - split; [done | eauto].
  - split; [by intros [? ?] | done].
Qed.

(** When the tables have the columns the section asks for, its five
    computations return. *)
Lemma computations_return (age military year : DataFrame) :
  age_schema age → year_schema year → military_schema military →
  ∃ a v y m s,
    proportions_by_age_type age = Ok a ∧ rates_by_mechanism age = Ok v
    ∧ proportions_by_year_type year = Ok y
    ∧ military_service_data military = Ok m
    ∧ correlation_series military = Ok s.
Proof.
  intros (H1 & Hm & Hr) H3 (H4 & Hy & Hsev).
  destruct (proj2 (plot_data_Ok ["injury_mechanism"; "rate_est"] age))
    as [v Hv]; [by repeat constructor|].
  destruct (proj2 (plot_data_Ok ["year"; "diagnosed"; "severity"; "service"]
              military)) as [s Hs].
  { destruct H4 as (? & ? & _). by repeat constructor. }
  eexists _, v, _, _, s.
  split; [by apply has_columns_ok|]. split; [done|].
  split; [by apply has_columns_ok|].
  split; [by apply military_service_data_ok | done].
Qed.

(** X14: whatever the charting calls do, the Visualizations section runs to
    its end only if the three tables have the columns it asks for, with
    number_est and diagnosed holding no string.  When they have, none of
    the five computations raises: each structure is computed and handed to
    its chart, and the section ends in an exception only if a chart call
    raises one. *)
Theorem visualizations_schema (lib : Charting)
    (age military year : DataFrame) :
  ((∃ c, visualizations lib age military year = Ok c) →
   age_schema age ∧ year_schema year ∧ military_schema military)
  ∧ (age_schema age ∧ year_schema year ∧ military_schema military →
     ∃ a v y m s,
       proportions_by_age_type age = Ok a ∧ rates_by_mechanism age = Ok v
       ∧ proportions_by_year_type year = Ok y
       ∧ military_service_data military = Ok m
       ∧ correlation_series military = Ok s
       ∧ visualizations lib age military year
         = (_ ← plot_bar lib a; _ ← violinplot lib v; _ ← plot_bar lib y;
            _ ← ax_pie lib m; _ ← scatterplot lib s;
            Ok (mkCharts a v y m s))).
Proof.
  split.
  - unfold visualizations, age_schema, year_schema, military_schema.
    intros [c Hc].
    destruct (proportions_by_age_type age) as [P1|] eqn:H1; [|done].
    simpl in Hc. destruct (plot_bar lib P1) as [[]|]; [|done].
    destruct (rates_by_mechanism age) as [d1|] eqn:H2; [|done].
    simpl in Hc. destruct (violinplot lib d1) as [[]|]; [|done].
    destruct (proportions_by_year_type year) as [P2|] eqn:H3; [|done].
    simpl in Hc. destruct (plot_bar lib P2) as [[]|]; [|done].
    destruct (military_service_data military) as [rs|] eqn:H4; [|done].
    simpl in Hc. destruct (ax_pie lib rs) as [[]|]; [|done].
    destruct (correlation_series military) as [d2|] eqn:H5; [|done].
    apply proportions_Ok_inv in H1 as [H1 _].
    apply proportions_Ok_inv in H3 as [H3 _].
    apply military_service_data_Ok_inv in H4 as [H4 _].
    assert (Forall (λ c, c ∈ columns age) ["injury_mechanism"; "rate_est"])
      as Hv by (apply plot_data_Ok; eauto).
    assert (Forall (λ c, c ∈ columns military)
              ["year"; "diagnosed"; "severity"; "service"])
      as Hs by (apply plot_data_Ok; eauto).
    apply Forall_cons in Hv as [Hv1 Hv]. apply Forall_cons in Hv as [Hv2 _].
    apply Forall_cons in Hs as [Hs1 Hs]. apply Forall_cons in Hs as [_ Hs].
    apply Forall_cons in Hs as [Hs3 _].
    split; [by split|]. split; [done|]. by split.
  - intros (Ha & Hy & Hm).
    destruct (computations_return age military year Ha Hy Hm)
      as (a & v & y & m & s & H1 & H2 & H3 & H4 & H5).
    exists a, v, y, m, s. repeat (split; [done|]).
    unfold visualizations. rewrite H1, H2, H3, H4, H5. simpl.
    destruct (plot_bar lib a) as [[]|]; [|done]. simpl.
    destruct (violinplot lib v) as [[]|]; [|done]. simpl.
    destruct (plot_bar lib y) as [[]|]; [|done]. simpl.
    destruct (ax_pie lib m) as [[]|]; [|done]. simpl.
    by destruct (scatterplot lib s) as [[]|].
Qed.

Lemma visualizations_schema_witness :
  ∃ c, visualizations draws_all age_full military_four_services year_full
       = Ok c.
Proof.
  destruct (proj2 (visualizations_schema draws_all age_full
                     military_four_services year_full))
    as (a & v & y & m & s & _ & _ & _ & _ & _ & Hrun).
  { split; [|split].
    - split; [has_columns_by_computation|]. split; by_computation.
    - has_columns_by_computation.
    - split; [has_service_columns_by_computation|]. split; by_computation. }
  exists (mkCharts a v y m s). exact Hrun.
Defined.

(** ** The further properties on tables *)

Lemma proportions_frame_shape_witness :
  let P := result_frame "age_group" "type" "number_est" (rows age_zero_group) in
  (StronglySorted value_le (index P) ∧ NoDup (index P)
   ∧ ∀ g, g ∈ index P
          ↔ ∃ r, r ∈ rows age_zero_group ∧ cell "age_group" r = Some g)
  ∧ (StronglySorted value_le (labels P) ∧ NoDup (labels P)
     ∧ ∀ c, c ∈ labels P
            ↔ ∃ r, r ∈ rows age_zero_group
                   ∧ is_Some (cell "age_group" r) ∧ cell "type" r = Some c)
  ∧ length (data P) = length (index P)
  ∧ Forall (λ cells, length cells = length (labels P)) (data P).
Proof.
  intros P.
  apply (proportions_frame_shape "age_group" "type" "number_est"
           age_zero_group P).
  vm_compute; reflexivity.
Defined.




Lemma proportions_of_empty_table_witness :
  proportions "age_group" "type" "number_est" age_header_only
  = Ok (mkFrame [] [] []).
Proof.
  apply proportions_of_empty_table.
  - by_computation.
  - by_computation.
  - by_computation.
  - reflexivity.
Defined.

Lemma service_rows_sorted_witness :
  let rs := map (per_1000 recruitment_numbers)
              (sort_by_diagnosed
                 (groupby_sum value_le (cell "service") (number "diagnosed")
                    (dtype_of "diagnosed" (rows coast_guard))
                    (rows coast_guard))) in
  StronglySorted (λ x y, diagnosed x ≤ diagnosed y) rs
  ∧ NoDup (map service rs).
Proof.
  intros rs. apply (service_rows_sorted coast_guard rs).
  vm_compute; reflexivity.
Defined.



(** ** A change of unit *)

Lemma Qc_sign_scale (k q : Qc) : 0 < k → Qc_sign (k * q) = Qc_sign q.
Proof.
  intros Hk. destruct (Qc_sign q) eqn:Hs.
  - apply Qc_sign_zero in Hs as ->. apply Qc_sign_zero. ring.
  - unfold Qc_sign in *. apply Qclt_alt in Hs. apply Qclt_alt.
    replace 0 with (k * 0) by ring. by apply Qcmult_lt_mono_pos_l.
  - apply Qc_sign_pos in Hs. apply Qc_sign_pos. by apply Qcmult_pos_pos.
Qed.

Lemma fdiv_scale (k a b : Qc) :
  0 < k → fdiv (Fin (k * a)) (Fin (k * b)) = fdiv (Fin a) (Fin b).
Proof.
  intros Hk. unfold fdiv. rewrite !Qc_sign_scale by done.
  destruct (Qc_sign b) eqn:Hb; [done|..]; f_equal; field; split;
    try (by apply Qclt_ne_0); intros ->; by rewrite ?Qcmult_0_r in Hb.
Qed.

Section scaled_rows.
Variables (V : string) (k : Qc).

Lemma cell_scaled (c : string) (r : gmap string value) :
  c ≠ V → cell c (alter (scale_value k) V r) = cell c r.
Proof. intros Hne. unfold cell. by apply lookup_alter_ne. Qed.

Lemma number_scaled (r : gmap string value) :
  number V (alter (scale_value k) V r) = Qcmult k <$> number V r.
Proof.
  unfold number, Row.
  rewrite (lookup_alter_eq (M := gmap string) (scale_value k) r V).
  by destruct (r !! V) as [[s|q]|].
Qed.

Lemma holds_string_scaled (r : gmap string value) :
  holds_string V (alter (scale_value k) V r) = holds_string V r.
Proof.
  unfold holds_string, Row.
  rewrite (lookup_alter_eq (M := gmap string) (scale_value k) r V).
  by destruct (r !! V) as [[s|q]|].
Qed.

Context {K : Type} `{EqDecision K} (le : relation K) `{!RelDecision le}.
Variable key : Row → option K.
Hypothesis key_scaled :
  ∀ r : gmap string value, key (alter (scale_value k) V r) = key r.

Lemma group_labels_scaled (rs : list Row) :
  group_labels le key (map (alter (scale_value k) V) rs)
  = group_labels le key rs.
Proof.
  unfold group_labels. do 2 f_equal.
  induction rs as [|r rs IH]; [done|]. simpl. rewrite key_scaled.
  destruct (key r); [f_equal|]; exact IH.
Qed.

Lemma group_sum_scaled (rs : list Row) (x : K) :
  group_sum key (number V) (map (alter (scale_value k) V) rs) x
  = k * group_sum key (number V) rs x.
Proof.
  induction rs as [|r rs IH].
  - unfold group_sum, group. simpl. ring.
  - cbn [map]. rewrite !group_sum_cons, IH, key_scaled, number_scaled.
    case_decide; destruct (number V r); simpl; ring.
Qed.
End scaled_rows.

Lemma key2_scaled (G C V : string) (k : Qc) (r : gmap string value) :
  G ≠ V → C ≠ V →
  key2 G C (alter (scale_value k) V r) = key2 G C r.
Proof. intros HG HC. unfold key2. by rewrite !cell_scaled. Qed.

Lemma numeric_scaled (V : string) (k : Qc) (df : DataFrame) :
  numeric V (scale_column V k df) = numeric V df.
Proof.
  unfold numeric, scale_column. simpl.
  assert (forallb (λ r, negb (holds_string V r))
            (map (alter (scale_value k) V) (rows df))
          = forallb (λ r, negb (holds_string V r)) (rows df)) as ->; [|done].
  induction (rows df) as [|r rs IH]; [done|].
  simpl. by rewrite holds_string_scaled, IH.
Qed.


Lemma magnitude_nonneg (V : string) (rs : list Row) : 0 ≤ magnitude V rs.
Proof.
  induction rs as [|r rs IH]; [done|]. unfold magnitude in *. simpl.
  apply Qcplus_nonneg_nonneg; [apply Qcabs.Qcabs_nonneg | done].
Qed.

Lemma magnitude_scaled (V : string) (k : Qc) (rs : list Row) :
  0 ≤ k →
  magnitude V (map (alter (scale_value k) V) rs) = k * magnitude V rs.
Proof.
  intros Hk. induction rs as [|r rs IH]; [unfold magnitude; simpl; ring|].
  unfold magnitude in *. cbn [map Qc_sum foldr].
  fold (Qc_sum (map (λ r, Qcabs.Qcabs (default 0 (number V r)))
                  (map (alter (scale_value k) V) rs))).
  fold (Qc_sum (map (λ r, Qcabs.Qcabs (default 0 (number V r))) rs)).
  rewrite IH, number_scaled. destruct (number V r) as [q|]; simpl.
  - rewrite Qcabs.Qcabs_Qcmult, (Qcabs.Qcabs_pos k) by done. ring.
  - rewrite (Qcabs.Qcabs_pos 0) by done. ring.
Qed.

Lemma result_frame_scaled (G C V : string) (k : Qc) (rs : list Row) :
  G ≠ V → C ≠ V → 0 < k →
  magnitude V rs < Qc_of_Z (2 ^ 63) →
  magnitude V (map (alter (scale_value k) V) rs) < Qc_of_Z (2 ^ 63) →
  result_frame G C V (map (alter (scale_value k) V) rs)
  = result_frame G C V rs.
Proof.
  intros HG HC Hk Hfit Hfit'.
  pose proof (λ r, cell_scaled V k G r HG) as HkG.
  pose proof (λ r, key2_scaled G C V k r HG HC) as Hk2.
  assert (categories G C V (map (alter (scale_value k) V) rs)
          = categories G C V rs) as Hcat.
  { apply (Sorted_unique value_le).
    - apply Sorted_merge_sort, _.
    - apply Sorted_merge_sort, _.
    - apply NoDup_Permutation; [apply NoDup_categories..|].
      intros c. rewrite !elem_of_categories.
      by rewrite (group_labels_scaled V k pair_le (key2 G C) Hk2). }
  assert (index (result_frame G C V (map (alter (scale_value k) V) rs))
          = index (result_frame G C V rs)) as Hidx.
  { apply (Sorted_unique value_le).
    - apply Sorted_merge_sort, _.
    - apply Sorted_merge_sort, _.
    - rewrite !index_result_frame_groups.
      by rewrite (group_labels_scaled V k value_le (cell G) HkG). }
  apply frame_eq; [done..|].
  rewrite !data_result_frame, Hidx, Hcat.
  apply map_ext. intros g. apply map_ext. intros c. unfold percentage.
  rewrite !held_group_sum by done.
  rewrite (group_labels_scaled V k pair_le (key2 G C) Hk2).
  rewrite (group_sum_scaled V k (key2 G C) Hk2).
  rewrite (group_sum_scaled V k (cell G) HkG).
  by rewrite fdiv_scale.
Qed.

(** X15: the percentages do not depend on the unit of the value column.
    In a table whose value column holds integers, multiplying every number
    of that column by the same positive integer leaves the output of the
    proportions pipeline as it is, as long as the multiplied numbers add up,
    in absolute value, to less than 2^53: up to there int64 sums do not
    wrap around and float64 holds every sum as it is. *)
Theorem proportions_scale_invariant (G C V : string) (k : Z)
    (df : DataFrame) :
  G ≠ V → C ≠ V → (0 < k)%Z →
  integers V (rows df) →
  Qc_of_Z k * magnitude V (rows df) < Qc_of_Z (2 ^ 53) →
  proportions G C V (scale_column V (Qc_of_Z k) df) = proportions G C V df.
Proof.
  intros HG HC Hk _ Hsmall.
  assert (0 < Qc_of_Z k) as Hk'
    by (rewrite <-Z2Qc_inj_0; by apply (proj1 (Z2Qc_inj_lt 0 k))).
  assert (Qc_of_Z (2 ^ 53) < Qc_of_Z (2 ^ 63)) as H53
    by (by apply (proj1 (Z2Qc_inj_lt _ _))).
  assert (magnitude V (rows df) ≤ Qc_of_Z k * magnitude V (rows df)) as Hle.
  { rewrite <-(Qcmult_1_l (magnitude V (rows df))) at 1.
    apply Qcmult_le_mono_nonneg_r; [apply magnitude_nonneg|].
    rewrite <-Z2Qc_inj_1. apply (proj1 (Z2Qc_inj_le _ _)). lia. }
  unfold proportions, groupby2_sum, groupby1_sum, require.
  rewrite numeric_scaled. simpl.
  repeat case_decide; simpl; try done.
  destruct (numeric V df); simpl; [|done].
  f_equal. apply (result_frame_scaled G C V); [done..| |].
  - eapply Qcle_lt_trans; [exact Hle|]. by etrans.
  - rewrite magnitude_scaled by (by apply Qclt_le_weak). by etrans.
Qed.

Lemma proportions_scale_invariant_witness :
  proportions "age_group" "type" "number_est"
    (scale_column "number_est" (Qc_of_Z 1000) age_scenario)
  = proportions "age_group" "type" "number_est" age_scenario.
Proof.
  apply proportions_scale_invariant.
  - done.
  - done.
  - done.
  - intros r q Hr. revert q. revert r Hr.
    refine (proj1 (Forall_forall _ _) _).
    repeat constructor; intros q Hq; vm_compute in Hq; injection Hq as <-;
      eexists; by apply Qc_is_canon.
  - by vm_compute.
Defined.
